(** * libwaypoint_follower: waypoint index tracking

    A shallow embedding of [libwaypoint_follower.cpp] (lane direction,
    waypoint heading, closest-index search and current-index update) and the
    properties of it that the design document states.

    Numbers.  A C++ [double] is read in two ways.

    The first part takes the arithmetic as exact: a [double] is a real
    number ([R]), [M_PI] is [PI] and [DBL_MAX] is the largest finite binary64
    value.  Rounding, overflow, infinities and NaN are outside this reading.
    It carries the statements that transcribe the code or that follow from
    the order of its tests and the branches it takes, whatever the values
    compared.

    The module [Binary64] embeds [normalizeAngle], [getClosestIndex] and
    [updateCurrentIndex] on IEEE 754 binary64 numbers.  It carries the
    statements that depend on the doubles computed: whether a distance
    compares below [DBL_MAX], whether it compares above the one before it,
    whether the loops of [normalizeAngle] finish.

    A C++ [int] is modelled as [Z]; vectors are far shorter than [2^31], so
    no index arithmetic wraps.

    Control.  Counted [for] loops recurse on the number of iterations left;
    the two [while] loops of [normalizeAngle] run on fuel: over the reals
    they are shown to finish, on doubles they need not.  [std::vector::at]
    may throw, so the functions that use it return [option]; [None] is the
    exception. *)

From Stdlib Require Import Reals Lra Lia ZArith List Bool.
From Stdlib Require PrimFloat FloatAxioms SpecFloat.
Import ListNotations.

Open Scope R_scope.

(** ** Comparisons of doubles as booleans *)

Definition Rltb (x y : R) : bool := if Rlt_dec x y then true else false.

Infix "<?" := Rltb (at level 70, no associativity) : R_scope.

Arguments Rltb : simpl never.

(** ** Constants *)

(** [std::numeric_limits<double>::max()], that is [DBL_MAX]:
    (2 - 2^-52) * 2^1023 = 2^1024 - 2^971. *)
Definition DBL_MAX_Z : Z := Eval cbv in (2 ^ 1024 - 2 ^ 971)%Z.

Definition DBL_MAX : R := IZR DBL_MAX_Z.

(** ** normalizeAngle

    Over the reals both loops finish on every input; the function on
    doubles, where they need not, is [Binary64.normalizeAngle]. *)

(** [while (res > M_PI) res -= 2.0 * M_PI;] *)
Fixpoint wrap_down (fuel : nat) (res : R) : option R :=
  if PI <? res then
    match fuel with
    | O => None
    | S fuel' => wrap_down fuel' (res - 2 * PI)
    end
  else Some res.

(** [while (res < -M_PI) res += 2.0 * M_PI;] *)
Fixpoint wrap_up (fuel : nat) (res : R) : option R :=
  if res <? - PI then
    match fuel with
    | O => None
    | S fuel' => wrap_up fuel' (res + 2 * PI)
    end
  else Some res.

Definition normalizeAngle_fuel (fuel : nat) (euler : R) : option R :=
  match wrap_down fuel euler with
  | Some res => wrap_up fuel res
  | None => None
  end.

(** Iterations that the loops of [normalizeAngle] can need on [euler]. *)
Definition angle_fuel (euler : R) : nat := Z.to_nat (up (Rabs euler / (2 * PI))).

Definition normalizeAngle (euler : R) : R :=
  match normalizeAngle_fuel (angle_fuel euler) euler with
  | Some res => res
  | None => euler
  end.

(** ** Messages *)

(** [geometry_msgs::Point] *)
Record Point := mkPoint { Point_x : R; Point_y : R; Point_z : R }.

(** [geometry_msgs::Quaternion] *)
Record Quaternion := mkQuaternion
  { Quaternion_x : R; Quaternion_y : R; Quaternion_z : R; Quaternion_w : R }.

(** [geometry_msgs::Pose] *)
Record Pose := mkPose { position : Point; orientation : Quaternion }.

(** [autoware_msgs::Waypoint]: of its fields the library reads [pose.pose]
    and [twist.twist.linear.x], the signed target speed. *)
Record Waypoint := mkWaypoint { pose : Pose; twist_linear_x : R }.

(** [autoware_msgs::Lane] *)
Record Lane := mkLane { waypoints : list Waypoint }.

(** Default-constructed messages: every field zero. *)
Definition Point_zero : Point := mkPoint 0 0 0.
Definition Pose_zero : Pose := mkPose Point_zero (mkQuaternion 0 0 0 0).
Definition Waypoint_zero : Waypoint := mkWaypoint Pose_zero 0.

(** [current_path.waypoints.size()] as an [int]. *)
Definition path_size (current_path : Lane) : Z := Z.of_nat (length (waypoints current_path)).

(** [current_path.waypoints[i]], unchecked in C++: this reading is the
    code's only for [0 <= i < path_size]; outside the vector the C++
    behaviour is undefined. *)
Definition waypoint_at (current_path : Lane) (i : Z) : Waypoint :=
  nth (Z.to_nat i) (waypoints current_path) Waypoint_zero.

(** [current_path.waypoints.at(i)]: throws [std::out_of_range] outside the
    vector, also for a negative [i], which converts to a huge [size_t]. *)
Definition at_ (current_path : Lane) (i : Z) : option Waypoint :=
  if ((0 <=? i) && (i <? path_size current_path))%Z
  then nth_error (waypoints current_path) (Z.to_nat i)
  else None.

(** ** The tf library

    [tf::Transform], [tf::poseMsgToTF] and [tf::getYaw] belong to the tf
    library, not to this repository: they are taken as operations of an
    interface, and every theorem holds for each implementation of it. *)
Class TfLibrary := {
  Transform : Type;
  poseMsgToTF : Pose -> Transform;
  inverse : Transform -> Transform;
  transform_point : Transform -> Point -> Point;
  getYaw : Quaternion -> R
}.

(** ** Geometry *)

(** [tf::Vector3] *)
Record Vector3 := mkVector3 { getX : R; getY : R; getZ : R }.

Definition point2vector (point : Point) : Vector3 :=
  mkVector3 (Point_x point) (Point_y point) (Point_z point).

Definition setZ (v : Vector3) (z : R) : Vector3 := mkVector3 (getX v) (getY v) z.

(** [tf::tfDistance(v1, v2)], the length of [v2 - v1], exact: the double
    that the code computes, with its rounding and overflow, is
    [Binary64.tfDistance]. *)
Definition tfDistance (v1 v2 : Vector3) : R :=
  let dx := getX v2 - getX v1 in
  let dy := getY v2 - getY v1 in
  let dz := getZ v2 - getZ v1 in
  sqrt (dx * dx + dy * dy + dz * dz).

Definition getPlaneDistance (target1 target2 : Point) : R :=
  let v1 := setZ (point2vector target1) 0 in
  let v2 := setZ (point2vector target2) 0 in
  tfDistance v1 v2.

(** [atan2(y, x)] of [<cmath>] on reals: the angle of the vector [(x, y)],
    in [(-PI, PI]], and [0] for the null vector. *)
Definition atan2 (y x : R) : R :=
  if 0 <? x then atan (y / x)
  else if x <? 0 then (if y <? 0 then atan (y / x) - PI else atan (y / x) + PI)
  else if 0 <? y then PI / 2
  else if y <? 0 then - (PI / 2)
  else 0.

(** [enum class LaneDirection] *)
Inductive LaneDirection := Backward | Forward | Error.

Definition LaneDirection_eqb (a b : LaneDirection) : bool :=
  match a, b with
  | Backward, Backward | Forward, Forward | Error, Error => true
  | _, _ => false
  end.

(** A call that may throw: [None] is the exception. *)
Notation "x <- e ;; k" := (match e with Some x => k | None => None end)
  (at level 61, e at next level, right associativity).

Section Library.

Context `{TfLibrary}.

Definition calcRelativeCoordinate (point_msg : Point) (current_pose : Pose) : Point :=
  let transform := inverse (poseMsgToTF current_pose) in
  transform_point transform point_msg.

(** *** getWaypointYaw *)

(** Bearing of the segment from waypoint [from] to waypoint [to]:
    [atan2] of the difference of their positions. *)
Definition segment_yaw (current_path : Lane) (from to : Z) : R :=
  let p_from := position (pose (waypoint_at current_path from)) in
  let p_to := position (pose (waypoint_at current_path to)) in
  atan2 (Point_y p_to - Point_y p_from) (Point_x p_to - Point_x p_from).

(** The local [behind_to_current_yaw] once the velocity test is done. *)
Definition behind_to_current_yaw (current_path : Lane) (current_index : Z) : R :=
  let yaw := segment_yaw current_path (current_index - 1) current_index in
  if twist_linear_x (waypoint_at current_path current_index) <? 0
  then normalizeAngle (yaw + PI)
  else yaw.

(** The local [current_to_front_yaw] once the velocity test is done. *)
Definition current_to_front_yaw (current_path : Lane) (current_index : Z) : R :=
  let yaw := segment_yaw current_path current_index (current_index + 1) in
  if twist_linear_x (waypoint_at current_path (current_index + 1)) <? 0
  then normalizeAngle (yaw + PI)
  else yaw.

Definition getWaypointYaw (current_path : Lane) (current_index : Z) : R :=
  let current_yaw := getYaw (orientation (pose (waypoint_at current_path current_index))) in
  if ((0 <? current_index) && (current_index <? path_size current_path - 1))%Z then
    let behind := behind_to_current_yaw current_path current_index in
    let front := current_to_front_yaw current_path current_index in
    let angle_diff := normalizeAngle (front - behind) in
    if Rabs angle_diff <? PI
    then normalizeAngle (behind + angle_diff / 2)
    else front
  else if (0 <? current_index)%Z then
    behind_to_current_yaw current_path current_index
  else if (current_index <? path_size current_path - 1)%Z then
    current_to_front_yaw current_path current_index
  else current_yaw.

(** *** getLaneDirection *)

(** The loop of [getLaneDirectionByPosition] from index [i], with [count]
    indices left: the first pair that is 1e-3 apart along x decides. *)
Fixpoint position_scan (current_path : Lane) (count : nat) (i : Z) : LaneDirection :=
  match count with
  | O => Error
  | S count' =>
      let prev_pose := pose (waypoint_at current_path (i - 1)) in
      let next_pose := pose (waypoint_at current_path i) in
      let rlt_x := Point_x (calcRelativeCoordinate (position next_pose) prev_pose) in
      if Rabs rlt_x <? 1 / 1000
      then position_scan current_path count' (i + 1)
      else if rlt_x <? 0 then Backward else Forward
  end.

Definition getLaneDirectionByPosition (current_path : Lane) : LaneDirection :=
  if (path_size current_path <? 2)%Z then Error
  else position_scan current_path (Z.to_nat (path_size current_path - 1)) 1.

(** The range-for of [getLaneDirectionByVelocity]. *)
Fixpoint velocity_scan (wps : list Waypoint) : LaneDirection :=
  match wps with
  | [] => Error
  | waypoint :: rest =>
      let vel := twist_linear_x waypoint in
      if Rabs vel <? 1 / 100
      then velocity_scan rest
      else if vel <? 0 then Backward else Forward
  end.

Definition getLaneDirectionByVelocity (current_path : Lane) : LaneDirection :=
  velocity_scan (waypoints current_path).

Definition getLaneDirection (current_path : Lane) : LaneDirection :=
  let pos_ret := getLaneDirectionByPosition current_path in
  let vel_ret := getLaneDirectionByVelocity current_path in
  let is_conflict :=
    negb (LaneDirection_eqb pos_ret vel_ret)
    && negb (LaneDirection_eqb pos_ret Error)
    && negb (LaneDirection_eqb vel_ret Error) in
  if is_conflict then Error
  else if negb (LaneDirection_eqb pos_ret Error) then pos_ret
  else vel_ret.

(** *** getClosestIndex *)

Definition valid_distance : R := 5.
Definition valid_angle : R := PI / 2.

(** First loop of [getClosestIndex] from index [i], [count] indices left:
    the nearest waypoint among those closer than [min_distance] whose
    heading is within [valid_angle] of the robot's. *)
Fixpoint gated_search (current_path : Lane) (current_pose : Pose) (robot_yaw : R)
    (count : nat) (i : Z) (min_distance : R) (closest_index : Z) : Z :=
  match count with
  | O => closest_index
  | S count' =>
      let distance :=
        getPlaneDistance (position (pose (waypoint_at current_path i))) (position current_pose) in
      let waypoint_yaw := getWaypointYaw current_path i in
      let angle_diff := normalizeAngle (waypoint_yaw - robot_yaw) in
      if (distance <? min_distance) && (Rabs angle_diff <? valid_angle)
      then gated_search current_path current_pose robot_yaw count' (i + 1) distance i
      else gated_search current_path current_pose robot_yaw count' (i + 1) min_distance closest_index
  end.

(** Second loop of [getClosestIndex]: the nearest waypoint, heading ignored. *)
Fixpoint nearest_search (current_path : Lane) (current_pose : Pose)
    (count : nat) (i : Z) (min_distance : R) (closest_index : Z) : Z :=
  match count with
  | O => closest_index
  | S count' =>
      let distance :=
        getPlaneDistance (position (pose (waypoint_at current_path i))) (position current_pose) in
      if distance <? min_distance
      then nearest_search current_path current_pose count' (i + 1) distance i
      else nearest_search current_path current_pose count' (i + 1) min_distance closest_index
  end.

Definition getClosestIndex (current_path : Lane) (current_pose : Pose) : Z :=
  if (path_size current_path <? 2)%Z then (-1)%Z
  else
    let size := length (waypoints current_path) in
    let robot_yaw := getYaw (orientation current_pose) in
    let closest_index :=
      gated_search current_path current_pose robot_yaw size 0 valid_distance (-1) in
    if negb (closest_index =? -1)%Z then closest_index
    else nearest_search current_path current_pose size 0 DBL_MAX closest_index.

(** *** updateCurrentIndex *)

(** The branches of one iteration of the offset loop; [None] is [break]. *)
Definition offset_step (prev_velocity current_velocity next_velocity : R)
    (prev_distance current_distance next_distance : R) (start_index_offset : Z) : option Z :=
  if (current_velocity * next_velocity <? 0) && (0 <=? start_index_offset)%Z
  then Some (start_index_offset + 1)%Z
  else if (0 <? current_velocity * next_velocity) && (next_distance <? current_distance)
          && (0 <=? start_index_offset)%Z
  then Some (start_index_offset + 1)%Z
  else if (0 <? prev_velocity * current_velocity) && (prev_distance <? current_distance)
          && (start_index_offset <=? 0)%Z
  then Some (start_index_offset - 1)%Z
  else None.

(** One iteration at index [i], reading the three waypoints with [at]. *)
Definition offset_iteration (current_path : Lane) (current_pose : Pose)
    (i : Z) (start_index_offset : Z) : option (option Z) :=
  prev <- at_ current_path (i - 1) ;;
  current <- at_ current_path i ;;
  next <- at_ current_path (i + 1) ;;
  Some (offset_step (twist_linear_x prev) (twist_linear_x current) (twist_linear_x next)
          (getPlaneDistance (position current_pose) (position (pose prev)))
          (getPlaneDistance (position current_pose) (position (pose current)))
          (getPlaneDistance (position current_pose) (position (pose next)))
          start_index_offset).

(** [for (int i = start_index; i < path_size - 1; i++)] with [count]
    iterations left; the result is the final [start_index_offset]. *)
Fixpoint offset_loop (current_path : Lane) (current_pose : Pose)
    (count : nat) (i : Z) (start_index_offset : Z) : option Z :=
  match count with
  | O => Some start_index_offset
  | S count' =>
      step <- offset_iteration current_path current_pose i start_index_offset ;;
      match step with
      | Some offset' => offset_loop current_path current_pose count' (i + 1) offset'
      | None => Some start_index_offset
      end
  end.

(** [for (int i = start_index; i < path_size; i++)] with [count] iterations
    left; the result is the final [next_index]. *)
Fixpoint distance_scan (current_path : Lane) (current_pose : Pose)
    (count : nat) (i : Z) (prev_distance : R) (next_index : Z) : option Z :=
  match count with
  | O => Some next_index
  | S count' =>
      waypoint <- at_ current_path i ;;
      let current_distance :=
        getPlaneDistance (position (pose waypoint)) (position current_pose) in
      if prev_distance <? current_distance
      then Some (i - 1)%Z
      else distance_scan current_path current_pose count' (i + 1) current_distance next_index
  end.

(** [std::min(std::max(0, index), path_size - 1)] *)
Definition clamp_index (index size : Z) : Z := Z.min (Z.max 0 index) (size - 1).

(** The offset search: [start_index] after the first phase. *)
Definition search_start (current_path : Lane) (current_pose : Pose) (start_index : Z)
    : option Z :=
  if ((start_index <? path_size current_path - 1) && (0 <? start_index))%Z then
    start_index_offset <-
      offset_loop current_path current_pose
        (Z.to_nat (path_size current_path - 1 - start_index)) start_index 0 ;;
    Some (start_index + start_index_offset)%Z
  else Some start_index.

Definition updateCurrentIndex (current_path : Lane) (current_pose : Pose) (current_index : Z)
    : option Z :=
  if ((path_size current_path <? 2) || (path_size current_path - 1 <? current_index))%Z
  then Some (-1)%Z
  else if (current_index <? 0)%Z then Some (getClosestIndex current_path current_pose)
  else if (path_size current_path <? 1)%Z then Some (-1)%Z
  else
    start_index <- search_start current_path current_pose current_index ;;
    let start_index := clamp_index start_index (path_size current_path) in
    next_index <-
      distance_scan current_path current_pose
        (Z.to_nat (path_size current_path - start_index)) start_index DBL_MAX current_index ;;
    Some (clamp_index next_index (path_size current_path)).

End Library.

(** ** Vocabulary of the statements *)

(** The signed target speed of waypoint [i]. *)
Definition velocity_at (current_path : Lane) (i : Z) : R :=
  twist_linear_x (waypoint_at current_path i).

(** The planar distance from waypoint [i] to the pose. *)
Definition distance_at (current_path : Lane) (current_pose : Pose) (i : Z) : R :=
  getPlaneDistance (position (pose (waypoint_at current_path i))) (position current_pose).

(** The two conditions under which the offset loop, at index [i], moves the
    start forward: a change of sign of the speed after [i], or speeds of one
    sign with the next waypoint nearer than this one. *)
Definition forward_qualifies (current_path : Lane) (current_pose : Pose) (i : Z) : Prop :=
  velocity_at current_path i * velocity_at current_path (i + 1) < 0 \/
  (0 < velocity_at current_path i * velocity_at current_path (i + 1) /\
   distance_at current_path current_pose (i + 1) < distance_at current_path current_pose i).

(** The condition under which the offset loop, at index [i], moves the start
    backward: speeds of one sign before [i], the previous waypoint nearer. *)
Definition backward_qualifies (current_path : Lane) (current_pose : Pose) (i : Z) : Prop :=
  0 < velocity_at current_path (i - 1) * velocity_at current_path i /\
  distance_at current_path current_pose (i - 1) < distance_at current_path current_pose i.

(** The values that [start_index_offset] takes, one per iteration that does
    not [break], in the run of [offset_loop]. *)
Fixpoint offset_trace (current_path : Lane) (current_pose : Pose)
    (count : nat) (i : Z) (start_index_offset : Z) : list Z :=
  match count with
  | O => []
  | S count' =>
      match offset_iteration current_path current_pose i start_index_offset with
      | Some (Some offset') =>
          offset' :: offset_trace current_path current_pose count' (i + 1) offset'
      | _ => []
      end
  end.

(** A trace that only moves forward from [offset], one step per iteration,
    each of them at an index where [forward_qualifies]. *)
Definition runs_forward (current_path : Lane) (current_pose : Pose)
    (i offset : Z) (trace : list Z) : Prop :=
  forall k : nat, (k < length trace)%nat ->
    nth k trace 0%Z = (offset + Z.of_nat k + 1)%Z /\
    forward_qualifies current_path current_pose (i + Z.of_nat k).

(** A trace that only moves backward from [offset], one step per iteration,
    each of them at an index where [backward_qualifies]. *)
Definition runs_backward (current_path : Lane) (current_pose : Pose)
    (i offset : Z) (trace : list Z) : Prop :=
  forall k : nat, (k < length trace)%nat ->
    nth k trace 0%Z = (offset - Z.of_nat k - 1)%Z /\
    backward_qualifies current_path current_pose (i + Z.of_nat k).



(** ** Concrete inputs *)

(** A planar implementation of the tf interface, used to run the functions
    on concrete inputs: a transform is a rotation about the vertical axis
    followed by a translation, and the yaw of a quaternion [(0, 0, z, w)] is
    twice the angle of [(w, z)]. *)
Definition planar_rotate (yaw : R) (p : Point) : Point :=
  mkPoint (cos yaw * Point_x p - sin yaw * Point_y p)
          (sin yaw * Point_x p + cos yaw * Point_y p)
          (Point_z p).

Definition planar_getYaw (q : Quaternion) : R := 2 * atan2 (Quaternion_z q) (Quaternion_w q).

Definition planar_inverse (t : R * Point) : R * Point :=
  let '(yaw, origin) := t in
  (- yaw, planar_rotate (- yaw) (mkPoint (- Point_x origin) (- Point_y origin) (- Point_z origin))).

Definition planar_transform_point (t : R * Point) (p : Point) : Point :=
  let '(yaw, origin) := t in
  let r := planar_rotate yaw p in
  mkPoint (Point_x r + Point_x origin) (Point_y r + Point_y origin) (Point_z r + Point_z origin).

#[export] Instance planar_tf : TfLibrary := {|
  Transform := R * Point;
  poseMsgToTF := fun p => (planar_getYaw (orientation p), position p);
  inverse := planar_inverse;
  transform_point := planar_transform_point;
  getYaw := planar_getYaw
|}.

(** A waypoint at [(x, y)] on the ground, facing along x, with target speed [v]. *)
Definition waypoint_xy (x y v : R) : Waypoint :=
  mkWaypoint (mkPose (mkPoint x y 0) (mkQuaternion 0 0 0 1)) v.

(** A pose at [(x, y)] on the ground, facing along x. *)
Definition pose_xy (x y : R) : Pose := mkPose (mkPoint x y 0) (mkQuaternion 0 0 0 1).

(** Three waypoints along x, then a left turn of a quarter at the middle one. *)
Definition left_turn_path : Lane :=
  mkLane [waypoint_xy 0 0 1; waypoint_xy 1 0 1; waypoint_xy 1 1 1].

(** Three waypoints along x; only the first has a negative speed. *)
Definition reverse_start_path : Lane :=
  mkLane [waypoint_xy 0 0 (-1); waypoint_xy 1 0 1; waypoint_xy 2 0 1].

(** Three waypoints along x, all driven forward. *)
Definition straight3_path : Lane :=
  mkLane [waypoint_xy 0 0 1; waypoint_xy 1 0 1; waypoint_xy 2 0 1].

(** Six waypoints along x, one unit apart, all driven forward. *)
Definition straight6_path : Lane :=
  mkLane [waypoint_xy 0 0 1; waypoint_xy 1 0 1; waypoint_xy 2 0 1;
          waypoint_xy 3 0 1; waypoint_xy 4 0 1; waypoint_xy 5 0 1].

(** A single waypoint. *)
Definition single_path : Lane := mkLane [waypoint_xy 0 0 1].

(** Three waypoints laid out along x but all with a negative speed. *)
Definition backward_speed_path : Lane :=
  mkLane [waypoint_xy 0 0 (-1); waypoint_xy 1 0 (-1); waypoint_xy 2 0 (-1)].

(** ** The rest of the library *)

(** [tf2::getYaw] belongs to the tf2 library: like the tf operations it is
    taken as an operation of an interface. *)
Class Tf2Library := { tf2_getYaw : Quaternion -> R }.

(** *** class WayPoints *)

Record WayPoints := mkWayPoints { current_waypoints_ : Lane }.

Definition WayPoints_getSize (w : WayPoints) : Z :=
  match waypoints (current_waypoints_ w) with
  | [] => 0%Z
  | _ => path_size (current_waypoints_ w)
  end.

(** [getInterval], for a path that is empty or has at least two waypoints
    (with one waypoint the source reads [waypoints[1]] outside the vector). *)
Definition WayPoints_getInterval (w : WayPoints) : R :=
  match waypoints (current_waypoints_ w) with
  | [] => 0
  | _ =>
      let p0 := position (pose (waypoint_at (current_waypoints_ w) 0)) in
      let p1 := position (pose (waypoint_at (current_waypoints_ w) 1)) in
      tfDistance (mkVector3 (Point_x p0) (Point_y p0) 0) (mkVector3 (Point_x p1) (Point_y p1) 0)
  end.

(** The test [waypoint > getSize() - 1 || waypoint < 0] of the accessors. *)
Definition WayPoints_outside (w : WayPoints) (waypoint : Z) : bool :=
  ((WayPoints_getSize w - 1 <? waypoint) || (waypoint <? 0))%Z.

Definition WayPoints_getWaypointPosition (w : WayPoints) (waypoint : Z) : Point :=
  if WayPoints_outside w waypoint then Point_zero
  else position (pose (waypoint_at (current_waypoints_ w) waypoint)).

Definition WayPoints_getWaypointOrientation (w : WayPoints) (waypoint : Z) : Quaternion :=
  if WayPoints_outside w waypoint then mkQuaternion 0 0 0 0
  else orientation (pose (waypoint_at (current_waypoints_ w) waypoint)).

Definition WayPoints_getWaypointPose (w : WayPoints) (waypoint : Z) : Pose :=
  if WayPoints_outside w waypoint then Pose_zero
  else pose (waypoint_at (current_waypoints_ w) waypoint).

Definition WayPoints_getWaypointVelocityMPS (w : WayPoints) (waypoint : Z) : R :=
  if WayPoints_outside w waypoint then 0
  else twist_linear_x (waypoint_at (current_waypoints_ w) waypoint).

Definition WayPoints_inDrivingDirection `{TfLibrary}
    (w : WayPoints) (waypoint : Z) (current_pose : Pose) : bool :=
  let dir := getLaneDirection (current_waypoints_ w) in
  let x :=
    Point_x (calcRelativeCoordinate
               (position (pose (waypoint_at (current_waypoints_ w) waypoint))) current_pose) in
  ((x <? 0) && LaneDirection_eqb dir Backward)
  || (negb (x <? 0) && LaneDirection_eqb dir Forward).

(** *** Free functions *)

(** [class MinIDSearch]: the state is [(val_min_, idx_min_)]. *)
Record MinIDSearch := mkMinIDSearch { val_min_ : R; idx_min_ : Z }.

Definition MinIDSearch_new : MinIDSearch := mkMinIDSearch DBL_MAX (-1).

Definition MinIDSearch_update (s : MinIDSearch) (index : Z) (v : R) : MinIDSearch :=
  if v <? val_min_ s then mkMinIDSearch v index else s.

Definition MinIDSearch_result (s : MinIDSearch) : Z := idx_min_ s.

Definition MinIDSearch_isOK (s : MinIDSearch) : bool := negb (idx_min_ s =? -1)%Z.

Section RestOfLibrary.

Context `{Tf2Library}.

Definition transformToRelativeCoordinate2D (point : Point) (origin : Pose) : Point :=
  let trans_x := Point_x point - Point_x (position origin) in
  let trans_y := Point_y point - Point_y (position origin) in
  let yaw := tf2_getYaw (orientation origin) in
  mkPoint (cos yaw * trans_x + sin yaw * trans_y)
          ((-1) * sin yaw * trans_x + cos yaw * trans_y)
          (Point_z (position origin)).

(** [isDirectionForward]: [poses.at(2)] and [poses.at(1)] throw on a vector
    that is too short; [None] is the exception. *)
Definition isDirectionForward (poses : list Pose) : option bool :=
  p2 <- nth_error poses 2 ;;
  p1 <- nth_error poses 1 ;;
  let rel_p := transformToRelativeCoordinate2D (position p2) p1 in
  Some (0 <? Point_x rel_p).

End RestOfLibrary.

(** A planar implementation, for concrete inputs: the yaw of [planar_getYaw]. *)
#[export] Instance planar_tf2 : Tf2Library := {| tf2_getYaw := planar_getYaw |}.

(** ** Vocabulary of the further statements *)

(** A target speed below the threshold of [getLaneDirectionByVelocity]. *)
Definition negligible_speed (waypoint : Waypoint) : Prop :=
  Rabs (twist_linear_x waypoint) < 1 / 100.

(** A [MinIDSearch] after the updates of a list, in order. *)
Definition MinIDSearch_run (updates : list (Z * R)) : MinIDSearch :=
  fold_left (fun s u => MinIDSearch_update s (fst u) (snd u)) updates MinIDSearch_new.

(** The path with the target speed of its first waypoint replaced. *)
Definition set_first_speed (v : R) (current_path : Lane) : Lane :=
  match waypoints current_path with
  | [] => current_path
  | first :: rest => mkLane (mkWaypoint (pose first) v :: rest)
  end.

(** The two gates of the first loop of [getClosestIndex] at index [i]. *)
Definition passes_gates `{TfLibrary} (current_path : Lane) (current_pose : Pose) (i : Z) : Prop :=
  distance_at current_path current_pose i < valid_distance /\
  Rabs (normalizeAngle (getWaypointYaw current_path i - getYaw (orientation current_pose)))
  < valid_angle.

(** * The index search on machine doubles

    What [normalizeAngle], [getClosestIndex] and [updateCurrentIndex] return
    depends on the doubles that the code computes and compares: a squared
    coordinate difference overflows to infinity from about 1.3e154 on, a
    comparison with NaN is false, and subtracting [2.0 * M_PI] from a large
    double can return that double again.  This module embeds the three
    functions, and what they call, on IEEE 754 binary64 numbers with the
    operations of the hardware (round to nearest even), so that a statement
    about it is a statement about the values the code compares.  Every
    operation of the source is one operation here: the compiler is taken to
    evaluate in binary64, without fused multiply-add or wider registers.

    [tf::getYaw] and [atan2] are operations of an interface: their results
    are not fixed bit for bit by a standard.

    The two [while] loops of [normalizeAngle] need not finish; they run on
    [fuel], the number of iterations allowed to each loop of each call.  A
    function returns [None] when it returns no value: a read with [at] threw,
    or a loop needed more iterations than [fuel]. *)
Module Binary64.

Import PrimFloat.

#[local] Open Scope float_scope.

(** A C++ [double]. *)
Definition double : Set := float.

(** [M_PI] of [<cmath>], 3.14159265358979323846 rounded to a double. *)
Definition M_PI : double := 0x1.921fb54442d18p+1.

(** [std::numeric_limits<double>::max()] *)
Definition DBL_MAX : double := 0x1.fffffffffffffp+1023.

(** *** normalizeAngle *)

(** [while (res > M_PI) res -= 2.0 * M_PI;] *)
Fixpoint wrap_down (fuel : nat) (res : double) : option double :=
  if M_PI <? res then
    match fuel with
    | O => None
    | S fuel' => wrap_down fuel' (res - 2 * M_PI)
    end
  else Some res.

(** [while (res < -M_PI) res += 2.0 * M_PI;] *)
Fixpoint wrap_up (fuel : nat) (res : double) : option double :=
  if res <? - M_PI then
    match fuel with
    | O => None
    | S fuel' => wrap_up fuel' (res + 2 * M_PI)
    end
  else Some res.

Definition normalizeAngle (fuel : nat) (euler : double) : option double :=
  res <- wrap_down fuel euler ;;
  wrap_up fuel res.

(** *** Messages *)

(** [geometry_msgs::Point] *)
Record Point := mkPoint { Point_x : double; Point_y : double; Point_z : double }.

(** [geometry_msgs::Quaternion] *)
Record Quaternion := mkQuaternion
  { Quaternion_x : double; Quaternion_y : double; Quaternion_z : double; Quaternion_w : double }.

(** [geometry_msgs::Pose] *)
Record Pose := mkPose { position : Point; orientation : Quaternion }.

(** [autoware_msgs::Waypoint]: [pose.pose] and [twist.twist.linear.x]. *)
Record Waypoint := mkWaypoint { pose : Pose; twist_linear_x : double }.

(** [autoware_msgs::Lane] *)
Record Lane := mkLane { waypoints : list Waypoint }.

Definition Pose_zero : Pose := mkPose (mkPoint 0 0 0) (mkQuaternion 0 0 0 0).
Definition Waypoint_zero : Waypoint := mkWaypoint Pose_zero 0.

(** [current_path.waypoints.size()] as an [int]. *)
Definition path_size (current_path : Lane) : Z := Z.of_nat (length (waypoints current_path)).

(** [current_path.waypoints[i]], unchecked in C++: this reading is the
    code's only for [0 <= i < path_size], and every theorem that reads a
    waypoint this way has the index inside the path. *)
Definition waypoint_at (current_path : Lane) (i : Z) : Waypoint :=
  nth (Z.to_nat i) (waypoints current_path) Waypoint_zero.

(** [current_path.waypoints.at(i)]: throws outside the vector. *)
Definition at_ (current_path : Lane) (i : Z) : option Waypoint :=
  if ((0 <=? i) && (i <? path_size current_path))%Z
  then nth_error (waypoints current_path) (Z.to_nat i)
  else None.

(** [tf::getYaw] of the tf library and [atan2] of [<cmath>]. *)
Class Libraries := {
  getYaw : Quaternion -> double;
  atan2 : double -> double -> double
}.

(** *** Geometry *)

(** [tf::Vector3], whose [tfScalar] is [double]. *)
Record Vector3 := mkVector3 { getX : double; getY : double; getZ : double }.

Definition point2vector (point : Point) : Vector3 :=
  mkVector3 (Point_x point) (Point_y point) (Point_z point).

Definition setZ (v : Vector3) (z : double) : Vector3 := mkVector3 (getX v) (getY v) z.

(** [tf::tfDistance(v1, v2)]: [(v2 - v1).length()], the square root of the
    dot product [x * x + y * y + z * z], every operation rounded. *)
Definition tfDistance (v1 v2 : Vector3) : double :=
  let dx := getX v2 - getX v1 in
  let dy := getY v2 - getY v1 in
  let dz := getZ v2 - getZ v1 in
  sqrt (dx * dx + dy * dy + dz * dz).

Definition getPlaneDistance (target1 target2 : Point) : double :=
  let v1 := setZ (point2vector target1) 0 in
  let v2 := setZ (point2vector target2) 0 in
  tfDistance v1 v2.

Section Library.

Context `{Libraries}.

(** *** getWaypointYaw *)

(** [atan2] of the difference of the positions of waypoints [from] and [to]. *)
Definition segment_yaw (current_path : Lane) (from to : Z) : double :=
  let p_from := position (pose (waypoint_at current_path from)) in
  let p_to := position (pose (waypoint_at current_path to)) in
  atan2 (Point_y p_to - Point_y p_from) (Point_x p_to - Point_x p_from).

(** The local [behind_to_current_yaw] once the velocity test is done. *)
Definition behind_to_current_yaw (fuel : nat) (current_path : Lane) (current_index : Z)
    : option double :=
  let yaw := segment_yaw current_path (current_index - 1) current_index in
  if twist_linear_x (waypoint_at current_path current_index) <? 0
  then normalizeAngle fuel (yaw + M_PI)
  else Some yaw.

(** The local [current_to_front_yaw] once the velocity test is done. *)
Definition current_to_front_yaw (fuel : nat) (current_path : Lane) (current_index : Z)
    : option double :=
  let yaw := segment_yaw current_path current_index (current_index + 1) in
  if twist_linear_x (waypoint_at current_path (current_index + 1)) <? 0
  then normalizeAngle fuel (yaw + M_PI)
  else Some yaw.

Definition getWaypointYaw (fuel : nat) (current_path : Lane) (current_index : Z)
    : option double :=
  let current_yaw := getYaw (orientation (pose (waypoint_at current_path current_index))) in
  if ((0 <? current_index) && (current_index <? path_size current_path - 1))%Z then
    behind <- behind_to_current_yaw fuel current_path current_index ;;
    front <- current_to_front_yaw fuel current_path current_index ;;
    angle_diff <- normalizeAngle fuel (front - behind) ;;
    if abs angle_diff <? M_PI
    then normalizeAngle fuel (behind + angle_diff / 2)
    else Some front
  else if (0 <? current_index)%Z then
    behind_to_current_yaw fuel current_path current_index
  else if (current_index <? path_size current_path - 1)%Z then
    current_to_front_yaw fuel current_path current_index
  else Some current_yaw.

(** *** getClosestIndex *)

Definition valid_distance : double := 5.
Definition valid_angle : double := M_PI / 2.

(** First loop of [getClosestIndex] from index [i], [count] indices left.
    The heading of the waypoint and its difference from the robot's are
    computed at every index, before the test. *)
Fixpoint gated_search (fuel : nat) (current_path : Lane) (current_pose : Pose)
    (robot_yaw : double) (count : nat) (i : Z) (min_distance : double) (closest_index : Z)
    : option Z :=
  match count with
  | O => Some closest_index
  | S count' =>
      let distance :=
        getPlaneDistance (position (pose (waypoint_at current_path i))) (position current_pose) in
      waypoint_yaw <- getWaypointYaw fuel current_path i ;;
      angle_diff <- normalizeAngle fuel (waypoint_yaw - robot_yaw) ;;
      if (distance <? min_distance) && (abs angle_diff <? valid_angle)
      then gated_search fuel current_path current_pose robot_yaw count' (i + 1) distance i
      else gated_search fuel current_path current_pose robot_yaw count' (i + 1)
             min_distance closest_index
  end.

(** Second loop of [getClosestIndex]: the nearest waypoint, heading ignored. *)
Fixpoint nearest_search (current_path : Lane) (current_pose : Pose)
    (count : nat) (i : Z) (min_distance : double) (closest_index : Z) : Z :=
  match count with
  | O => closest_index
  | S count' =>
      let distance :=
        getPlaneDistance (position (pose (waypoint_at current_path i))) (position current_pose) in
      if distance <? min_distance
      then nearest_search current_path current_pose count' (i + 1) distance i
      else nearest_search current_path current_pose count' (i + 1) min_distance closest_index
  end.

Definition getClosestIndex (fuel : nat) (current_path : Lane) (current_pose : Pose)
    : option Z :=
  if (path_size current_path <? 2)%Z then Some (-1)%Z
  else
    let size := length (waypoints current_path) in
    let robot_yaw := getYaw (orientation current_pose) in
    closest_index <-
      gated_search fuel current_path current_pose robot_yaw size 0%Z valid_distance (-1)%Z ;;
    if negb (closest_index =? -1)%Z then Some closest_index
    else Some (nearest_search current_path current_pose size 0%Z DBL_MAX closest_index).

(** *** updateCurrentIndex *)

(** The branches of one iteration of the offset loop; [None] is [break]. *)
Definition offset_step (prev_velocity current_velocity next_velocity : double)
    (prev_distance current_distance next_distance : double) (start_index_offset : Z)
    : option Z :=
  if (current_velocity * next_velocity <? 0) && (0 <=? start_index_offset)%Z
  then Some (start_index_offset + 1)%Z
  else if (0 <? current_velocity * next_velocity) && (next_distance <? current_distance)
          && (0 <=? start_index_offset)%Z
  then Some (start_index_offset + 1)%Z
  else if (0 <? prev_velocity * current_velocity) && (prev_distance <? current_distance)
          && (start_index_offset <=? 0)%Z
  then Some (start_index_offset - 1)%Z
  else None.

(** One iteration at index [i], reading the three waypoints with [at]. *)
Definition offset_iteration (current_path : Lane) (current_pose : Pose)
    (i : Z) (start_index_offset : Z) : option (option Z) :=
  prev <- at_ current_path (i - 1) ;;
  current <- at_ current_path i ;;
  next <- at_ current_path (i + 1) ;;
  Some (offset_step (twist_linear_x prev) (twist_linear_x current) (twist_linear_x next)
          (getPlaneDistance (position current_pose) (position (pose prev)))
          (getPlaneDistance (position current_pose) (position (pose current)))
          (getPlaneDistance (position current_pose) (position (pose next)))
          start_index_offset).

(** [for (int i = start_index; i < path_size - 1; i++)] with [count]
    iterations left; the result is the final [start_index_offset]. *)
Fixpoint offset_loop (current_path : Lane) (current_pose : Pose)
    (count : nat) (i : Z) (start_index_offset : Z) : option Z :=
  match count with
  | O => Some start_index_offset
  | S count' =>
      step <- offset_iteration current_path current_pose i start_index_offset ;;
      match step with
      | Some offset' => offset_loop current_path current_pose count' (i + 1) offset'
      | None => Some start_index_offset
      end
  end.

(** [for (int i = start_index; i < path_size; i++)] with [count] iterations
    left; the result is the final [next_index]. *)
Fixpoint distance_scan (current_path : Lane) (current_pose : Pose)
    (count : nat) (i : Z) (prev_distance : double) (next_index : Z) : option Z :=
  match count with
  | O => Some next_index
  | S count' =>
      waypoint <- at_ current_path i ;;
      let current_distance :=
        getPlaneDistance (position (pose waypoint)) (position current_pose) in
      if prev_distance <? current_distance
      then Some (i - 1)%Z
      else distance_scan current_path current_pose count' (i + 1) current_distance next_index
  end.

(** The offset search: [start_index] after the first phase. *)
Definition search_start (current_path : Lane) (current_pose : Pose) (start_index : Z)
    : option Z :=
  if ((start_index <? path_size current_path - 1) && (0 <? start_index))%Z then
    start_index_offset <-
      offset_loop current_path current_pose
        (Z.to_nat (path_size current_path - 1 - start_index)) start_index 0%Z ;;
    Some (start_index + start_index_offset)%Z
  else Some start_index.

Definition updateCurrentIndex (fuel : nat) (current_path : Lane) (current_pose : Pose)
    (current_index : Z) : option Z :=
  if ((path_size current_path <? 2) || (path_size current_path - 1 <? current_index))%Z
  then Some (-1)%Z
  else if (current_index <? 0)%Z then getClosestIndex fuel current_path current_pose
  else if (path_size current_path <? 1)%Z then Some (-1)%Z
  else
    start_index <- search_start current_path current_pose current_index ;;
    let start_index := clamp_index start_index (path_size current_path) in
    next_index <-
      distance_scan current_path current_pose
        (Z.to_nat (path_size current_path - start_index)) start_index DBL_MAX current_index ;;
    Some (clamp_index next_index (path_size current_path)).

(** *** Vocabulary of the statements *)

(** The heading difference that the first loop of [getClosestIndex]
    computes at index [i]. *)
Definition heading_gap (fuel : nat) (current_path : Lane) (robot_yaw : double) (i : Z)
    : option double :=
  waypoint_yaw <- getWaypointYaw fuel current_path i ;;
  normalizeAngle fuel (waypoint_yaw - robot_yaw).

(** The heading gate of the first loop at index [i]: the heading difference
    is computed, and its absolute value compares below [valid_angle]. *)
Definition heading_ok (fuel : nat) (current_path : Lane) (robot_yaw : double) (i : Z)
    : bool :=
  match heading_gap fuel current_path robot_yaw i with
  | Some angle_diff => abs angle_diff <? valid_angle
  | None => false
  end.

End Library.

(** *** findClosestIdxWithDistAngThr *)

(** [tf2::getYaw] of the tf2 library. *)
Class Tf2Library := { tf2_getYaw : Quaternion -> double }.




(** *** Vocabulary of the statements, continued *)

(** The double that the forward scan computes for waypoint [i]. *)
Definition distance_at (current_path : Lane) (current_pose : Pose) (i : Z) : double :=
  getPlaneDistance (position (pose (waypoint_at current_path i))) (position current_pose).



(** [res] after [n] iterations of the body of the first loop of
    [normalizeAngle], and of the second. *)
Fixpoint subtract_turns (n : nat) (res : double) : double :=
  match n with
  | O => res
  | S n' => subtract_turns n' (res - 2 * M_PI)
  end.


(** *** Concrete inputs *)

(** The results of [atan2] that C11 (F.10.1.4) fixes on the coordinate
    axes; off the axes this table has no entry, and NaN marks the gap.  The
    paths below run along the x axis. *)
Definition axis_atan2 (y x : double) : double :=
  if y =? 0 then
    if (0 <? x) || Leibniz.eqb x 0 then y
    else if (x <? 0) || (x =? 0) then (if Leibniz.eqb y 0 then M_PI else - M_PI)
    else nan
  else if x =? 0 then
    if 0 <? y then M_PI / 2
    else if y <? 0 then - (M_PI / 2)
    else nan
  else nan.

(** The yaw of a rotation [(0, 0, z, w)] about the vertical axis. *)
#[global] Instance axis_libraries : Libraries := {|
  getYaw := fun q => 2 * axis_atan2 (Quaternion_z q) (Quaternion_w q);
  atan2 := axis_atan2
|}.


(** A waypoint at [(x, y)] on the ground, facing along x, with target speed [v]. *)
Definition waypoint_xy (x y v : double) : Waypoint :=
  mkWaypoint (mkPose (mkPoint x y 0) (mkQuaternion 0 0 0 1)) v.

(** A pose at [(x, y)] on the ground, facing along x. *)
Definition pose_xy (x y : double) : Pose := mkPose (mkPoint x y 0) (mkQuaternion 0 0 0 1).

(** Three waypoints along x, all driven forward. *)
Definition straight3_path : Lane :=
  mkLane [waypoint_xy 0 0 1; waypoint_xy 1 0 1; waypoint_xy 2 0 1].

(** Six waypoints along x, one unit apart, all driven forward. *)
Definition straight6_path : Lane :=
  mkLane [waypoint_xy 0 0 1; waypoint_xy 1 0 1; waypoint_xy 2 0 1;
          waypoint_xy 3 0 1; waypoint_xy 4 0 1; waypoint_xy 5 0 1].

(** A single waypoint. *)
Definition single_path : Lane := mkLane [waypoint_xy 0 0 1].




(** A pose at [x = 2^700]: finite, with a square that is not. *)
Definition overflow_pose : Pose := pose_xy 0x1p+700 0.

(** Poses on the x axis at 0, 5, 7 and 100. *)
Definition pose_at_0 : Pose := pose_xy 0 0.
Definition pose_at_5 : Pose := pose_xy 5 0.
Definition pose_at_7 : Pose := pose_xy 7 0.


Definition two_to_60 : double := 0x1p+60.

End Binary64.

(** * Properties *)

(** ** Comparisons *)

Lemma Rltb_true (x y : R) : x < y -> (x <? y) = true.
Proof. intros H. unfold Rltb. destruct (Rlt_dec x y); [reflexivity | contradiction]. Qed.

Lemma Rltb_false (x y : R) : ~ x < y -> (x <? y) = false.
Proof. intros H. unfold Rltb. destruct (Rlt_dec x y); [contradiction | reflexivity]. Qed.

Lemma Rltb_spec (x y : R) : reflect (x < y) (x <? y).
Proof. unfold Rltb. destruct (Rlt_dec x y); constructor; assumption. Qed.

Lemma Rltb_true_iff (x y : R) : (x <? y) = true <-> x < y.
Proof. destruct (Rltb_spec x y); split; intros; (reflexivity || lra || discriminate). Qed.

Lemma Rltb_false_iff (x y : R) : (x <? y) = false <-> y <= x.
Proof. destruct (Rltb_spec x y); split; intros; (reflexivity || lra || discriminate). Qed.

Lemma DBL_MAX_large : 1000000 < DBL_MAX.
Proof. unfold DBL_MAX, DBL_MAX_Z. lra. Qed.

(** ** Reading the path *)

Lemma at_in_range (current_path : Lane) (i : Z) :
  (0 <= i < path_size current_path)%Z ->
  at_ current_path i = Some (waypoint_at current_path i).
Proof.
  intros Hi. unfold at_, waypoint_at.
  replace ((0 <=? i)%Z && (i <? path_size current_path)%Z) with true
    by (symmetry; apply andb_true_iff; split; [apply Z.leb_le | apply Z.ltb_lt]; lia).
  apply nth_error_nth'. unfold path_size in Hi. lia.
Qed.

Lemma getPlaneDistance_sym (target1 target2 : Point) :
  getPlaneDistance target1 target2 = getPlaneDistance target2 target1.
Proof. unfold getPlaneDistance, tfDistance. simpl. f_equal. ring. Qed.

Lemma getPlaneDistance_nonneg (target1 target2 : Point) : 0 <= getPlaneDistance target1 target2.
Proof. unfold getPlaneDistance, tfDistance. apply sqrt_pos. Qed.

(** Two points of equal ordinate are as far apart as their abscissas. *)
Lemma getPlaneDistance_same_y (x1 x2 y z1 z2 : R) :
  getPlaneDistance (mkPoint x1 y z1) (mkPoint x2 y z2) = Rabs (x2 - x1).
Proof.
  unfold getPlaneDistance, tfDistance. simpl.
  replace ((x2 - x1) * (x2 - x1) + (y - y) * (y - y) + (0 - 0) * (0 - 0))
    with (Rsqr (x2 - x1)) by (unfold Rsqr; ring).
  apply sqrt_Rsqr_abs.
Qed.

(** ** Running the functions on concrete inputs *)

Ltac Rcompare_solve :=
  rewrite ?getPlaneDistance_same_y; unfold DBL_MAX, DBL_MAX_Z, Rabs;
  repeat destruct Rcase_abs; lra.

(** Settles every comparison of two closed reals in the goal. *)
Ltac Rltb_decide :=
  repeat match goal with
    | |- context [Rltb ?a ?b] =>
        first [ rewrite (Rltb_true a b) by Rcompare_solve
              | rewrite (Rltb_false a b) by Rcompare_solve ]
    end.



(** ** normalizeAngle over the reals: it finishes, and what it returns *)

Section NormalizeAngle.

Lemma two_PI_pos : 0 < 2 * PI.
Proof. pose proof PI_RGT_0. lra. Qed.

Lemma wrap_down_enough (fuel : nat) (res : R) :
  res <= PI + INR fuel * (2 * PI) ->
  exists r k, wrap_down fuel res = Some r /\ (k <= fuel)%nat /\
              r = res - INR k * (2 * PI) /\ r <= PI /\
              (res <= PI -> r = res) /\ (PI < res -> - PI < r).
Proof.
  pose proof two_PI_pos as Hp.
  revert res. induction fuel as [|fuel IH]; intros res Hb.
  - simpl in Hb. exists res, 0%nat. simpl.
    rewrite Rltb_false by lra. repeat split; try lra; lia.
  - simpl. destruct (Rltb_spec PI res) as [Hgt|Hle].
    + destruct (IH (res - 2 * PI)) as (r & k & Hr & Hk & Heq & Hle & Hid & Hlo).
      { rewrite S_INR in Hb. lra. }
      exists r, (S k). rewrite S_INR. repeat split; try lra; try lia; try assumption.
    + exists res, 0%nat. simpl. repeat split; try lra; lia.
Qed.

Lemma wrap_up_enough (fuel : nat) (res : R) :
  - PI - INR fuel * (2 * PI) <= res ->
  exists r k, wrap_up fuel res = Some r /\ (k <= fuel)%nat /\
              r = res + INR k * (2 * PI) /\ - PI <= r /\
              (- PI <= res -> r = res) /\ (res < - PI -> r < PI).
Proof.
  pose proof two_PI_pos as Hp.
  revert res. induction fuel as [|fuel IH]; intros res Hb.
  - simpl in Hb. exists res, 0%nat. simpl.
    rewrite Rltb_false by lra. repeat split; try lra; lia.
  - simpl. destruct (Rltb_spec res (- PI)) as [Hlt|Hge].
    + destruct (IH (res + 2 * PI)) as (r & k & Hr & Hk & Heq & Hge & Hid & Hlo).
      { rewrite S_INR in Hb. lra. }
      exists r, (S k). rewrite S_INR. repeat split; try lra; try lia; try assumption.
    + exists res, 0%nat. simpl. repeat split; try lra; lia.
Qed.

Lemma angle_fuel_bound (euler : R) : Rabs euler <= INR (angle_fuel euler) * (2 * PI).
Proof.
  pose proof two_PI_pos as Hp. unfold angle_fuel.
  set (q := Rabs euler / (2 * PI)).
  assert (Hq : 0 <= q).
  { unfold q. apply Rmult_le_pos; [apply Rabs_pos|]. left. now apply Rinv_0_lt_compat. }
  destruct (archimed q) as [Hup _].
  assert (Hz : (0 <= up q)%Z).
  { apply le_IZR. lra. }
  rewrite INR_IZR_INZ, Z2Nat.id by assumption.
  assert (Rabs euler = q * (2 * PI)) as ->.
  { unfold q. field. lra. }
  apply Rmult_le_compat_r; lra.
Qed.

(** The loops finish on every input, within [angle_fuel] iterations each. *)
Lemma normalizeAngle_runs (euler : R) :
  exists r, normalizeAngle_fuel (angle_fuel euler) euler = Some r /\ normalizeAngle euler = r.
Proof.
  pose proof two_PI_pos as Hp.
  pose proof (angle_fuel_bound euler) as Hf.
  assert (Habs : - Rabs euler <= euler <= Rabs euler).
  { unfold Rabs. destruct (Rcase_abs euler); lra. }
  unfold normalizeAngle, normalizeAngle_fuel.
  destruct (wrap_down_enough (angle_fuel euler) euler) as (r1 & k1 & -> & _ & Heq1 & Hle1 & Hid1 & Hlo1);
    [lra|].
  destruct (wrap_up_enough (angle_fuel euler) r1) as (r2 & k2 & -> & _); [|eauto].
  destruct (Rle_or_lt euler PI) as [H|H].
  - rewrite (Hid1 H). lra.
  - specialize (Hlo1 H). pose proof (pos_INR (angle_fuel euler)). nra.
Qed.

(** What [normalizeAngle] computes: the input shifted by a whole number of
    turns into [[-PI, PI]], and unchanged when it is already there. *)
Lemma normalizeAngle_spec (euler : R) :
  - PI <= normalizeAngle euler <= PI /\
  (exists k : Z, normalizeAngle euler = euler + IZR k * (2 * PI)) /\
  (- PI <= euler <= PI -> normalizeAngle euler = euler) /\
  (- PI < euler -> - PI < normalizeAngle euler).
Proof.
  pose proof two_PI_pos as Hp.
  pose proof (angle_fuel_bound euler) as Hf.
  assert (Habs : - Rabs euler <= euler <= Rabs euler).
  { unfold Rabs. destruct (Rcase_abs euler); lra. }
  unfold normalizeAngle, normalizeAngle_fuel.
  destruct (wrap_down_enough (angle_fuel euler) euler)
    as (r1 & k1 & -> & _ & Heq1 & Hle1 & Hid1 & Hlo1); [lra|].
  assert (Hb2 : - PI - INR (angle_fuel euler) * (2 * PI) <= r1).
  { destruct (Rle_or_lt euler PI) as [H|H].
    - rewrite (Hid1 H). lra.
    - specialize (Hlo1 H). pose proof (pos_INR (angle_fuel euler)). nra. }
  destruct (wrap_up_enough (angle_fuel euler) r1)
    as (r2 & k2 & -> & _ & Heq2 & Hge2 & Hid2 & Hlo2); [assumption|].
  split; [|split; [|split]].
  - split; [assumption|].
    destruct (Rle_or_lt (- PI) r1) as [H|H].
    + rewrite (Hid2 H). assumption.
    + specialize (Hlo2 H). lra.
  - exists (Z.of_nat k2 - Z.of_nat k1)%Z.
    rewrite minus_IZR, <- !INR_IZR_INZ. lra.
  - intros [Hlo Hhi]. rewrite Hid2; rewrite Hid1; lra.
  - intros Hlo. rewrite Hid2; [lra|].
    destruct (Rle_or_lt euler PI) as [H|H].
    + rewrite (Hid1 H). lra.
    + specialize (Hlo1 H). lra.
Qed.

Lemma normalizeAngle_id (euler : R) : - PI <= euler <= PI -> normalizeAngle euler = euler.
Proof. apply normalizeAngle_spec. Qed.

Lemma normalizeAngle_range (euler : R) : - PI <= normalizeAngle euler <= PI.
Proof. apply normalizeAngle_spec. Qed.

End NormalizeAngle.

(** ** atan2 on the axes *)

Lemma atan2_pos_x_axis (x : R) : 0 < x -> atan2 0 x = 0.
Proof.
  intros Hx. unfold atan2. rewrite Rltb_true by assumption.
  replace (0 / x) with 0 by (field; lra). apply atan_0.
Qed.


(** ** getWaypointYaw *)

(** Half a turn is never a whole number of turns. *)
Lemma half_turn_not_whole (k : Z) : PI + IZR k * (2 * PI) <> 0.
Proof.
  pose proof PI_RGT_0 as Hpi. intros Heq.
  assert (H1 : IZR (1 + 2 * k) * PI = 0).
  { rewrite plus_IZR, mult_IZR. lra. }
  apply Rmult_integral in H1. destruct H1 as [H1|H1]; [|lra].
  apply eq_IZR in H1. lia.
Qed.

Lemma normalizeAngle_half_turn_neq (yaw : R) : normalizeAngle (yaw + PI) <> yaw.
Proof.
  destruct (normalizeAngle_spec (yaw + PI)) as (_ & [k Hk] & _).
  intros Heq. apply (half_turn_not_whole k). lra.
Qed.

(** C5, as amended: at an interior index, the bearing of the incoming segment
    is turned by half a turn exactly when the speed of the waypoint at the
    segment's far end, [current_index], is negative, and the bearing of the
    outgoing segment exactly when the speed at [current_index + 1] is
    negative; the heading is computed from these two bearings. *)
Theorem getWaypointYaw_flips_on_target_speed
  `{TfLibrary} (current_path : Lane) (current_index : Z) :
  (0 < current_index < path_size current_path - 1)%Z ->
  let incoming := segment_yaw current_path (current_index - 1) current_index in
  let outgoing := segment_yaw current_path current_index (current_index + 1) in
  let behind := behind_to_current_yaw current_path current_index in
  let front := current_to_front_yaw current_path current_index in
  (twist_linear_x (waypoint_at current_path current_index) < 0
     <-> behind = normalizeAngle (incoming + PI)) /\
  (~ twist_linear_x (waypoint_at current_path current_index) < 0
     <-> behind = incoming) /\
  (twist_linear_x (waypoint_at current_path (current_index + 1)) < 0
     <-> front = normalizeAngle (outgoing + PI)) /\
  (~ twist_linear_x (waypoint_at current_path (current_index + 1)) < 0
     <-> front = outgoing) /\
  getWaypointYaw current_path current_index =
    (if Rabs (normalizeAngle (front - behind)) <? PI
     then normalizeAngle (behind + normalizeAngle (front - behind) / 2)
     else front).
Proof.
  intros Hi incoming outgoing behind front.
  subst behind front. unfold behind_to_current_yaw, current_to_front_yaw.
  fold incoming outgoing.
  pose proof (normalizeAngle_half_turn_neq incoming) as Hin.
  pose proof (normalizeAngle_half_turn_neq outgoing) as Hout.
  repeat split;
    try (destruct (Rltb_spec (twist_linear_x (waypoint_at current_path current_index)) 0);
         intros; congruence || tauto);
    try (destruct (Rltb_spec (twist_linear_x (waypoint_at current_path (current_index + 1))) 0);
         intros; congruence || tauto).
  unfold getWaypointYaw.
  replace ((0 <? current_index)%Z && (current_index <? path_size current_path - 1)%Z)
    with true by (symmetry; apply andb_true_iff; split; apply Z.ltb_lt; lia).
  reflexivity.
Qed.

Lemma getWaypointYaw_flips_on_target_speed_witness :
  (0 < 1 < path_size reverse_start_path - 1)%Z /\
  (~ twist_linear_x (waypoint_at reverse_start_path 1) < 0
     <-> behind_to_current_yaw reverse_start_path 1
         = segment_yaw reverse_start_path (1 - 1) 1).
Proof.
  assert (Hi : (0 < 1 < path_size reverse_start_path - 1)%Z)
    by (unfold path_size; simpl; lia).
  split; [exact Hi|].
  apply (getWaypointYaw_flips_on_target_speed reverse_start_path 1 Hi).
Defined.

(** C5 as stated fails: the first waypoint of [reverse_start_path] has a
    negative speed, it is the source of the segment that enters index 1, and
    that segment's bearing is used as it is, not turned. *)
Lemma getWaypointYaw_source_speed_counterexample :
  (0 < 1 < path_size reverse_start_path - 1)%Z /\
  ~ (twist_linear_x (waypoint_at reverse_start_path (1 - 1)) < 0
       <-> behind_to_current_yaw reverse_start_path 1
           = normalizeAngle (segment_yaw reverse_start_path (1 - 1) 1 + PI)).
Proof.
  split; [unfold path_size; simpl; lia|].
  intros [Hflip _].
  assert (Hb : behind_to_current_yaw reverse_start_path 1
               = segment_yaw reverse_start_path (1 - 1) 1).
  { unfold behind_to_current_yaw. simpl. rewrite Rltb_false by lra. reflexivity. }
  rewrite Hb in Hflip.
  apply (normalizeAngle_half_turn_neq (segment_yaw reverse_start_path (1 - 1) 1)).
  symmetry. apply Hflip. simpl. lra.
Qed.



(** ** getLaneDirection *)

(** C4: the two estimates are combined as follows: [Error] when both are
    decided and differ; otherwise the positional estimate when it is decided,
    and the velocity estimate when the positional one is [Error]. *)
Theorem getLaneDirection_combines `{TfLibrary} (current_path : Lane) :
  getLaneDirection current_path =
    match getLaneDirectionByPosition current_path, getLaneDirectionByVelocity current_path with
    | Error, vel_ret => vel_ret
    | pos_ret, Error => pos_ret
    | Forward, Forward => Forward
    | Backward, Backward => Backward
    | Forward, Backward | Backward, Forward => Error
    end.
Proof.
  unfold getLaneDirection.
  destruct (getLaneDirectionByPosition current_path),
           (getLaneDirectionByVelocity current_path); reflexivity.
Qed.

(** On the planar implementation, a pose facing along x has yaw [0]. *)
Lemma planar_getYaw_facing_x : planar_getYaw (mkQuaternion 0 0 0 1) = 0.
Proof. unfold planar_getYaw. simpl. rewrite atan2_pos_x_axis by lra. lra. Qed.

(** Waypoints laid out and driven along x: both estimates say [Forward]. *)
Example getLaneDirection_straight3 : getLaneDirection straight3_path = Forward.
Proof.
  unfold getLaneDirection, getLaneDirectionByPosition, getLaneDirectionByVelocity, path_size.
  simpl. unfold calcRelativeCoordinate. simpl.
  rewrite !planar_getYaw_facing_x. rewrite !Ropp_0, cos_0, sin_0.
  Rltb_decide.
  reflexivity.
Qed.

(** Waypoints laid out along x but driven in reverse: the estimates are
    [Forward] and [Backward], and the result is [Error]. *)
Example getLaneDirection_conflict :
  getLaneDirectionByPosition backward_speed_path = Forward /\
  getLaneDirectionByVelocity backward_speed_path = Backward /\
  getLaneDirection backward_speed_path = Error.
Proof.
  unfold getLaneDirection, getLaneDirectionByPosition, getLaneDirectionByVelocity, path_size.
  simpl. unfold calcRelativeCoordinate. simpl.
  rewrite !planar_getYaw_facing_x. rewrite !Ropp_0, cos_0, sin_0.
  Rltb_decide.
  repeat split.
Qed.

(** ** The offset loop *)

(** What one iteration decides, in terms of the two conditions. *)
Lemma offset_step_cases (pv cv nv pd cd nd : R) (offset : Z) :
  match offset_step pv cv nv pd cd nd offset with
  | Some offset' =>
      ((offset' = offset + 1)%Z /\ (0 <= offset)%Z /\
       (cv * nv < 0 \/ (0 < cv * nv /\ nd < cd))) \/
      ((offset' = offset - 1)%Z /\ (offset <= 0)%Z /\ (0 < pv * cv /\ pd < cd) /\
       ((0 <= offset)%Z -> ~ (cv * nv < 0 \/ (0 < cv * nv /\ nd < cd))))
  | None =>
      ((0 <= offset)%Z -> ~ (cv * nv < 0 \/ (0 < cv * nv /\ nd < cd))) /\
      ((offset <= 0)%Z -> ~ (0 < pv * cv /\ pd < cd))
  end.
Proof.
  unfold offset_step.
  destruct (Rltb_spec (cv * nv) 0), (Rltb_spec 0 (cv * nv)), (Rltb_spec nd cd),
           (Rltb_spec 0 (pv * cv)), (Rltb_spec pd cd),
           (Z.leb_spec 0 offset), (Z.leb_spec offset 0); simpl;
    try (left; repeat split; (lia || tauto)); try (right; repeat split; (lia || tauto || lra));
    try (split; intros; (lia || tauto || lra)).
Qed.

(** Inside the path the three reads of an iteration succeed. *)
Lemma offset_iteration_in_range (current_path : Lane) (current_pose : Pose) (i offset : Z) :
  (1 <= i /\ i + 1 < path_size current_path)%Z ->
  offset_iteration current_path current_pose i offset =
    Some (offset_step (velocity_at current_path (i - 1)) (velocity_at current_path i)
            (velocity_at current_path (i + 1))
            (distance_at current_path current_pose (i - 1))
            (distance_at current_path current_pose i)
            (distance_at current_path current_pose (i + 1)) offset).
Proof.
  intros Hi. unfold offset_iteration.
  rewrite !at_in_range by lia. unfold velocity_at, distance_at.
  rewrite !(getPlaneDistance_sym (position current_pose)). reflexivity.
Qed.

(** One iteration in terms of [forward_qualifies] and [backward_qualifies]. *)
Lemma offset_iteration_cases (current_path : Lane) (current_pose : Pose) (i offset : Z) :
  (1 <= i /\ i + 1 < path_size current_path)%Z ->
  exists step, offset_iteration current_path current_pose i offset = Some step /\
    match step with
    | Some offset' =>
        (offset' = offset + 1 /\ 0 <= offset /\ forward_qualifies current_path current_pose i)%Z \/
        (offset' = offset - 1 /\ offset <= 0 /\ backward_qualifies current_path current_pose i /\
         (0 <= offset -> ~ forward_qualifies current_path current_pose i))%Z
    | None =>
        ((0 <= offset)%Z -> ~ forward_qualifies current_path current_pose i) /\
        ((offset <= 0)%Z -> ~ backward_qualifies current_path current_pose i)
    end.
Proof.
  intros Hi. rewrite offset_iteration_in_range by assumption.
  eexists. split; [reflexivity|].
  unfold forward_qualifies, backward_qualifies. apply offset_step_cases.
Qed.

Lemma last_cons_default {A : Type} (a : A) (l : list A) (d : A) :
  last (a :: l) d = last l a.
Proof.
  revert a d. induction l as [|b l IH]; intros a d; [reflexivity|].
  change (last (a :: b :: l) d) with (last (b :: l) d). rewrite !IH. reflexivity.
Qed.

Lemma last_as_nth {A : Type} (l : list A) (d : A) :
  l <> [] -> last l d = nth (length l - 1) l d.
Proof.
  induction l as [|a l IH]; intros Hne; [congruence|].
  destruct l as [|b l]; [reflexivity|].
  change (last (a :: b :: l) d) with (last (b :: l) d).
  rewrite IH by discriminate. simpl. rewrite Nat.sub_0_r. reflexivity.
Qed.

Lemma runs_forward_cons (current_path : Lane) (current_pose : Pose)
    (i offset : Z) (trace : list Z) :
  forward_qualifies current_path current_pose i ->
  runs_forward current_path current_pose (i + 1) (offset + 1) trace ->
  runs_forward current_path current_pose i offset ((offset + 1)%Z :: trace).
Proof.
  intros Hq Hrun [|k] Hk.
  - simpl. rewrite !Z.add_0_r. split; [lia | exact Hq].
  - simpl in Hk. destruct (Hrun k) as [Hnth Hfw]; [lia|].
    simpl nth. rewrite Hnth. split; [lia|].
    replace (i + Z.of_nat (S k))%Z with (i + 1 + Z.of_nat k)%Z by lia. exact Hfw.
Qed.

Lemma runs_backward_cons (current_path : Lane) (current_pose : Pose)
    (i offset : Z) (trace : list Z) :
  backward_qualifies current_path current_pose i ->
  runs_backward current_path current_pose (i + 1) (offset - 1) trace ->
  runs_backward current_path current_pose i offset ((offset - 1)%Z :: trace).
Proof.
  intros Hq Hrun [|k] Hk.
  - simpl. rewrite !Z.add_0_r. split; [lia | exact Hq].
  - simpl in Hk. destruct (Hrun k) as [Hnth Hbw]; [lia|].
    simpl nth. rewrite Hnth. split; [lia|].
    replace (i + Z.of_nat (S k))%Z with (i + 1 + Z.of_nat k)%Z by lia. exact Hbw.
Qed.

Lemma runs_forward_nil (current_path : Lane) (current_pose : Pose) (i offset : Z) :
  runs_forward current_path current_pose i offset [].
Proof. intros k Hk. simpl in Hk. lia. Qed.

Lemma runs_backward_nil (current_path : Lane) (current_pose : Pose) (i offset : Z) :
  runs_backward current_path current_pose i offset [].
Proof. intros k Hk. simpl in Hk. lia. Qed.

(** The offset loop inside the path: it never throws, its result is the last
    value of the trace, and the trace moves one way only. *)
Lemma offset_loop_spec (current_path : Lane) (current_pose : Pose)
    (count : nat) (i offset : Z) :
  (1 <= i)%Z -> (i + Z.of_nat count <= path_size current_path - 1)%Z ->
  let trace := offset_trace current_path current_pose count i offset in
  offset_loop current_path current_pose count i offset = Some (last trace offset) /\
  (length trace <= count)%nat /\
  ((0 < offset)%Z -> runs_forward current_path current_pose i offset trace) /\
  ((offset < 0)%Z -> runs_backward current_path current_pose i offset trace) /\
  (offset = 0%Z -> runs_forward current_path current_pose i offset trace \/
                   runs_backward current_path current_pose i offset trace).
Proof.
  revert i offset. induction count as [|count IH]; intros i offset Hlo Hhi.
  - simpl. split; [reflexivity|]. split; [lia|].
    split; [intros _; apply runs_forward_nil|].
    split; [intros _; apply runs_backward_nil|].
    intros _. left. apply runs_forward_nil.
  - destruct (offset_iteration_cases current_path current_pose i offset) as (step & Hstep & Hcases);
      [lia|].
    simpl. rewrite Hstep.
    destruct step as [offset'|].
    + destruct (IH (i + 1)%Z offset') as (Hres & Hlen & Hfw & Hbw & _); [lia | lia |].
      rewrite last_cons_default. split; [exact Hres|]. split; [simpl; lia|].
      destruct Hcases as [(-> & Hsign & Hq) | (-> & Hsign & Hq & _)].
      * assert (Hrun : runs_forward current_path current_pose i offset
                         ((offset + 1)%Z
                          :: offset_trace current_path current_pose count (i + 1) (offset + 1)))
          by (apply runs_forward_cons; [exact Hq | apply Hfw; lia]).
        split; [intros _; exact Hrun|]. split; [intros Hneg; lia|].
        intros _. left. exact Hrun.
      * assert (Hrun : runs_backward current_path current_pose i offset
                         ((offset - 1)%Z
                          :: offset_trace current_path current_pose count (i + 1) (offset - 1)))
          by (apply runs_backward_cons; [exact Hq | apply Hbw; lia]).
        split; [intros Hpos; lia|]. split; [intros _; exact Hrun|].
        intros _. right. exact Hrun.
    + simpl. split; [reflexivity|]. split; [lia|].
      split; [intros _; apply runs_forward_nil|].
      split; [intros _; apply runs_backward_nil|].
      intros _. left. apply runs_forward_nil.
Qed.

Lemma runs_forward_last (current_path : Lane) (current_pose : Pose) (i : Z) (trace : list Z) :
  runs_forward current_path current_pose i 0 trace -> last trace 0%Z = Z.of_nat (length trace).
Proof.
  intros Hrun. destruct trace as [|a trace]; [reflexivity|].
  rewrite last_as_nth by discriminate.
  destruct (Hrun (length (a :: trace) - 1)%nat) as [-> _]; simpl; lia.
Qed.

Lemma runs_backward_last (current_path : Lane) (current_pose : Pose) (i : Z) (trace : list Z) :
  runs_backward current_path current_pose i 0 trace ->
  last trace 0%Z = (- Z.of_nat (length trace))%Z.
Proof.
  intros Hrun. destruct trace as [|a trace]; [reflexivity|].
  rewrite last_as_nth by discriminate.
  destruct (Hrun (length (a :: trace) - 1)%nat) as [-> _]; simpl; lia.
Qed.

(** The run of the offset search from an interior index. *)
Lemma offset_search_run
  (current_path : Lane) (current_pose : Pose) (start_index : Z) :
  (0 < start_index < path_size current_path - 1)%Z ->
  let count := Z.to_nat (path_size current_path - 1 - start_index) in
  let trace := offset_trace current_path current_pose count start_index 0 in
  exists start_index_offset : Z,
    offset_loop current_path current_pose count start_index 0 = Some start_index_offset /\
    search_start current_path current_pose start_index
      = Some (start_index + start_index_offset)%Z /\
    start_index_offset = last trace 0%Z /\
    Z.abs start_index_offset = Z.of_nat (length trace) /\
    (length trace <= count)%nat /\
    ((runs_forward current_path current_pose start_index 0 trace /\ (0 <= start_index_offset)%Z) \/
     (runs_backward current_path current_pose start_index 0 trace /\ (start_index_offset <= 0)%Z)).
Proof.
  intros Hi count trace.
  destruct (offset_loop_spec current_path current_pose count start_index 0)
    as (Hres & Hlen & _ & _ & Hdir); [lia | subst count; lia |].
  fold trace in Hres, Hlen, Hdir.
  exists (last trace 0%Z). split; [exact Hres|]. split.
  { unfold search_start.
    replace ((start_index <? path_size current_path - 1)%Z && (0 <? start_index)%Z)
      with true by (symmetry; apply andb_true_iff; split; apply Z.ltb_lt; lia).
    fold count. rewrite Hres. reflexivity. }
  split; [reflexivity|].
  destruct (Hdir eq_refl) as [Hrun|Hrun].
  - rewrite (runs_forward_last _ _ _ _ Hrun). split; [lia|]. split; [exact Hlen|].
    left. split; [exact Hrun | lia].
  - rewrite (runs_backward_last _ _ _ _ Hrun). split; [lia|]. split; [exact Hlen|].
    right. split; [exact Hrun | lia].
Qed.

(** C7: in the offset search from an interior index the loop never throws,
    and the values of the offset move one way only.  Either every iteration
    adds one (the values are 1, 2, ..., each at an index where the forward
    condition holds) or every iteration subtracts one (the values are -1, -2,
    ..., each at an index where the backward condition holds): the offset is
    never raised once negative nor lowered once positive.  The final offset is
    the last value; its magnitude is the number of iterations that did not
    break, at most the number of iterations of the loop, so a backward offset
    is as large as the run of consecutive backward iterations that produced
    it. *)
Theorem offset_search_keeps_direction
  (current_path : Lane) (current_pose : Pose) (start_index : Z) :
  (0 < start_index < path_size current_path - 1)%Z ->
  let count := Z.to_nat (path_size current_path - 1 - start_index) in
  let trace := offset_trace current_path current_pose count start_index 0 in
  exists start_index_offset : Z,
    offset_loop current_path current_pose count start_index 0 = Some start_index_offset /\
    search_start current_path current_pose start_index
      = Some (start_index + start_index_offset)%Z /\
    start_index_offset = last trace 0%Z /\
    Z.abs start_index_offset = Z.of_nat (length trace) /\
    (length trace <= count)%nat /\
    ((runs_forward current_path current_pose start_index 0 trace /\ (0 <= start_index_offset)%Z) \/
     (runs_backward current_path current_pose start_index 0 trace /\ (start_index_offset <= 0)%Z)).
Proof. exact (offset_search_run current_path current_pose start_index). Qed.

(** On six waypoints along x with the pose at the first one, the offset
    search from index 3 runs two iterations, both backward: the offset goes
    0, -1, -2 and the start moves to index 1. *)
Lemma offset_search_keeps_direction_witness :
  (0 < 3 < path_size straight6_path - 1)%Z /\
  offset_trace straight6_path (pose_xy 0 0)
    (Z.to_nat (path_size straight6_path - 1 - 3)) 3 0 = [-1; -2]%Z /\
  offset_loop straight6_path (pose_xy 0 0)
    (Z.to_nat (path_size straight6_path - 1 - 3)) 3 0 = Some (-2)%Z /\
  search_start straight6_path (pose_xy 0 0) 3 = Some 1%Z.
Proof.
  assert (Hi : (0 < 3 < path_size straight6_path - 1)%Z) by (unfold path_size; simpl; lia).
  assert (Htrace : offset_trace straight6_path (pose_xy 0 0)
                     (Z.to_nat (path_size straight6_path - 1 - 3)) 3 0 = [-1; -2]%Z).
  { unfold path_size. simpl. unfold offset_iteration, offset_step, at_, path_size. simpl.
    Rltb_decide. simpl. Rltb_decide. reflexivity. }
  destruct (offset_search_keeps_direction straight6_path (pose_xy 0 0) 3 Hi)
    as (offset & Hloop & Hsearch & Hlast & _).
  rewrite Htrace in Hlast. simpl in Hlast. subst offset.
  split; [exact Hi|]. split; [exact Htrace|]. split; [exact Hloop | exact Hsearch].
Defined.

(** ** The forward scan *)

(** The forward scan inside the path never throws, and ends in one of three
    ways: no distance exceeds the one before it and [next_index] is kept; the
    first distance exceeds [prev_distance]; or the scan stops at the first
    index [r] whose successor is farther from the pose. *)
Lemma distance_scan_spec (current_path : Lane) (current_pose : Pose)
    (count : nat) (i : Z) (prev_distance : R) (next_index : Z) :
  (0 <= i)%Z -> (i + Z.of_nat count <= path_size current_path)%Z ->
  exists r : Z,
    distance_scan current_path current_pose count i prev_distance next_index = Some r /\
    ((r = next_index /\
      ((0 < count)%nat -> distance_at current_path current_pose i <= prev_distance) /\
      (forall m : Z, (i <= m)%Z -> (m + 1 < i + Z.of_nat count)%Z ->
         distance_at current_path current_pose (m + 1) <= distance_at current_path current_pose m))
     \/ (r = (i - 1)%Z /\ (0 < count)%nat /\
         prev_distance < distance_at current_path current_pose i)
     \/ ((i <= r)%Z /\ (r + 1 < i + Z.of_nat count)%Z /\
         distance_at current_path current_pose i <= prev_distance /\
         distance_at current_path current_pose r < distance_at current_path current_pose (r + 1) /\
         (forall m : Z, (i <= m < r)%Z ->
            distance_at current_path current_pose (m + 1)
            <= distance_at current_path current_pose m))).
Proof.
  revert i prev_distance. induction count as [|count IH]; intros i prev_distance Hlo Hhi.
  - exists next_index. split; [reflexivity|]. left.
    split; [reflexivity|]. split; [lia|]. intros m Hm1 Hm2. lia.
  - simpl. rewrite at_in_range by lia. fold (distance_at current_path current_pose i).
    destruct (Rltb_spec prev_distance (distance_at current_path current_pose i)) as [Hrise|Hkeep].
    + exists (i - 1)%Z. split; [reflexivity|]. right. left.
      split; [reflexivity|]. split; [lia | exact Hrise].
    + apply Rnot_lt_le in Hkeep.
      destruct (IH (i + 1)%Z (distance_at current_path current_pose i)) as (r & Hr & Hcases);
        [lia | lia |].
      exists r. split; [exact Hr|].
      destruct Hcases as [(Hnext & Hfirst & Hall) | [(Hri & Hcount & Hrise) | (Hr1 & Hr2 & Hfirst & Hrise & Hall)]].
      * left. split; [exact Hnext|]. split; [intros _; exact Hkeep|].
        intros m Hm1 Hm2. destruct (Z.eq_dec m i) as [->|Hne].
        -- apply Hfirst. lia.
        -- apply Hall; lia.
      * right. right. replace r with i in * by lia.
        split; [lia|]. split; [lia|]. split; [exact Hkeep|]. split; [exact Hrise|].
        intros m Hm. lia.
      * right. right.
        split; [lia|]. split; [lia|]. split; [exact Hkeep|]. split; [exact Hrise|].
        intros m Hm. destruct (Z.eq_dec m i) as [->|Hne].
        -- exact Hfirst.
        -- apply Hall. lia.
Qed.

(** ** updateCurrentIndex *)

Lemma clamp_index_in_range (index size : Z) :
  (0 <= index <= size - 1)%Z -> clamp_index index size = index.
Proof. intros Hi. unfold clamp_index. lia. Qed.

Lemma clamp_index_bounds (index size : Z) :
  (1 <= size)%Z -> (0 <= clamp_index index size <= size - 1)%Z.
Proof. intros Hs. unfold clamp_index. lia. Qed.

(** The offset search never throws; its start is the index itself at the two
    ends of the path. *)
Lemma search_start_total (current_path : Lane) (current_pose : Pose) (start_index : Z) :
  (0 <= start_index <= path_size current_path - 1)%Z ->
  exists start, search_start current_path current_pose start_index = Some start.
Proof.
  intros Hi.
  destruct (Z_lt_le_dec 0 start_index) as [Hpos|Hzero];
    [destruct (Z_lt_le_dec start_index (path_size current_path - 1)) as [Hint|Hend]|].
  - destruct (offset_search_run current_path current_pose start_index)
      as (offset & _ & Hs & _); [lia|]. eauto.
  - unfold search_start.
    replace (start_index <? path_size current_path - 1)%Z with false
      by (symmetry; apply Z.ltb_ge; lia). simpl. eauto.
  - unfold search_start.
    replace (0 <? start_index)%Z with false by (symmetry; apply Z.ltb_ge; lia).
    rewrite andb_false_r. eauto.
Qed.

(** With a valid previous index the two early returns are not taken. *)
Lemma updateCurrentIndex_warm `{TfLibrary}
    (current_path : Lane) (current_pose : Pose) (current_index : Z) :
  (2 <= path_size current_path)%Z ->
  (0 <= current_index <= path_size current_path - 1)%Z ->
  updateCurrentIndex current_path current_pose current_index =
    (start_index <- search_start current_path current_pose current_index ;;
     next_index <-
       distance_scan current_path current_pose
         (Z.to_nat (path_size current_path
                    - clamp_index start_index (path_size current_path)))
         (clamp_index start_index (path_size current_path)) DBL_MAX current_index ;;
     Some (clamp_index next_index (path_size current_path))).
Proof.
  intros Hsize Hi. unfold updateCurrentIndex.
  replace (path_size current_path <? 2)%Z with false by (symmetry; apply Z.ltb_ge; lia).
  replace (path_size current_path - 1 <? current_index)%Z with false
    by (symmetry; apply Z.ltb_ge; lia).
  replace (current_index <? 0)%Z with false by (symmetry; apply Z.ltb_ge; lia).
  replace (path_size current_path <? 1)%Z with false by (symmetry; apply Z.ltb_ge; lia).
  reflexivity.
Qed.

(** The outcome of a call with a valid previous index: no read throws, and
    the result is read off the way the forward scan ends. *)
Lemma updateCurrentIndex_outcome `{TfLibrary}
    (current_path : Lane) (current_pose : Pose) (current_index : Z) :
  (2 <= path_size current_path)%Z ->
  (0 <= current_index <= path_size current_path - 1)%Z ->
  exists start r : Z,
    search_start current_path current_pose current_index = Some start /\
    let start_index := clamp_index start (path_size current_path) in
    updateCurrentIndex current_path current_pose current_index
      = Some (clamp_index r (path_size current_path)) /\
    ((r = current_index /\
      distance_at current_path current_pose start_index <= DBL_MAX /\
      (forall m : Z, (start_index <= m)%Z -> (m + 1 < path_size current_path)%Z ->
        distance_at current_path current_pose (m + 1) <= distance_at current_path current_pose m))
     \/ (r = (start_index - 1)%Z /\
         DBL_MAX < distance_at current_path current_pose start_index)
     \/ ((start_index <= r)%Z /\ (r + 1 < path_size current_path)%Z /\
         distance_at current_path current_pose start_index <= DBL_MAX /\
         distance_at current_path current_pose r < distance_at current_path current_pose (r + 1) /\
         (forall m : Z, (start_index <= m < r)%Z ->
            distance_at current_path current_pose (m + 1)
            <= distance_at current_path current_pose m))).
Proof.
  intros Hsize Hi.
  destruct (search_start_total current_path current_pose current_index Hi) as [start Hstart].
  pose proof (clamp_index_bounds start (path_size current_path)) as Hclamp.
  set (start_index := clamp_index start (path_size current_path)) in *.
  destruct (distance_scan_spec current_path current_pose
              (Z.to_nat (path_size current_path - start_index)) start_index DBL_MAX current_index)
    as (r & Hr & Hcases); [lia | lia |].
  exists start, r. split; [exact Hstart|]. cbv zeta. split.
  { rewrite updateCurrentIndex_warm by assumption. rewrite Hstart.
    fold start_index. rewrite Hr. reflexivity. }
  rewrite Z2Nat.id in Hcases by lia.
  replace (start_index + (path_size current_path - start_index))%Z
    with (path_size current_path) in Hcases by lia.
  destruct Hcases as [(Hnext & Hfirst & Hall) | [(Hri & _ & Hrise) | Hstop]].
  - left. split; [exact Hnext|]. split; [apply Hfirst; lia | exact Hall].
  - right. left. split; assumption.
  - right. right. exact Hstop.
Qed.

(** A call never throws. *)
Lemma updateCurrentIndex_total `{TfLibrary}
    (current_path : Lane) (current_pose : Pose) (current_index : Z) :
  exists next_index, updateCurrentIndex current_path current_pose current_index = Some next_index.
Proof.
  destruct (Z_lt_le_dec (path_size current_path) 2) as [Hsmall|Hsize];
    [|destruct (Z_lt_le_dec (path_size current_path - 1) current_index) as [Hpast|Hin];
      [|destruct (Z_lt_le_dec current_index 0) as [Hneg|Hpos]]].
  - unfold updateCurrentIndex.
    replace (path_size current_path <? 2)%Z with true by (symmetry; apply Z.ltb_lt; lia).
    simpl. eauto.
  - unfold updateCurrentIndex.
    replace (path_size current_path - 1 <? current_index)%Z with true
      by (symmetry; apply Z.ltb_lt; lia).
    rewrite orb_true_r. eauto.
  - unfold updateCurrentIndex.
    replace (path_size current_path <? 2)%Z with false by (symmetry; apply Z.ltb_ge; lia).
    replace (path_size current_path - 1 <? current_index)%Z with false
      by (symmetry; apply Z.ltb_ge; lia).
    replace (current_index <? 0)%Z with true by (symmetry; apply Z.ltb_lt; lia).
    simpl. eauto.
  - destruct (updateCurrentIndex_outcome current_path current_pose current_index)
      as (start & r & _ & Hres & _); [lia | lia |]. eauto.
Qed.

(** C2: the call returns the sentinel [-1] when the path has fewer than two
    waypoints or the previous index is past the last valid index; and with
    at least two waypoints and the uninitialized previous index [-1] it
    returns what [getClosestIndex] returns. *)
Theorem updateCurrentIndex_sentinel_and_cold_start `{TfLibrary}
    (current_path : Lane) (current_pose : Pose) (current_index : Z) :
  ((path_size current_path < 2 \/ current_index > path_size current_path - 1)%Z ->
   updateCurrentIndex current_path current_pose current_index = Some (-1)%Z) /\
  ((2 <= path_size current_path)%Z ->
   updateCurrentIndex current_path current_pose (-1)
     = Some (getClosestIndex current_path current_pose)).
Proof.
  split.
  - intros Hbad. unfold updateCurrentIndex.
    replace ((path_size current_path <? 2)%Z || (path_size current_path - 1 <? current_index)%Z)
      with true; [reflexivity|].
    symmetry. apply orb_true_iff. destruct Hbad; [left | right]; apply Z.ltb_lt; lia.
  - intros Hsize. unfold updateCurrentIndex.
    replace (path_size current_path <? 2)%Z with false by (symmetry; apply Z.ltb_ge; lia).
    replace (path_size current_path - 1 <? -1)%Z with false by (symmetry; apply Z.ltb_ge; lia).
    reflexivity.
Qed.

Lemma updateCurrentIndex_sentinel_and_cold_start_witness :
  updateCurrentIndex single_path (pose_xy 0 0) 0 = Some (-1)%Z /\
  updateCurrentIndex straight3_path (pose_xy 0 0) 3 = Some (-1)%Z /\
  updateCurrentIndex straight3_path (pose_xy 0 0) (-1)
    = Some (getClosestIndex straight3_path (pose_xy 0 0)).
Proof.
  split; [|split].
  - apply (proj1 (updateCurrentIndex_sentinel_and_cold_start single_path (pose_xy 0 0) 0)).
    left. unfold path_size. simpl. lia.
  - apply (proj1 (updateCurrentIndex_sentinel_and_cold_start straight3_path (pose_xy 0 0) 3)).
    right. unfold path_size. simpl. lia.
  - apply (proj2 (updateCurrentIndex_sentinel_and_cold_start straight3_path (pose_xy 0 0) 3)).
    unfold path_size. simpl. lia.
Defined.

(** C10: with at least two waypoints, every negative previous index, not
    only [-1], is taken as uninitialized: the call returns what
    [getClosestIndex] returns. *)
Theorem updateCurrentIndex_negative_index_cold_start `{TfLibrary}
    (current_path : Lane) (current_pose : Pose) (current_index : Z) :
  (2 <= path_size current_path)%Z ->
  (current_index < 0)%Z ->
  updateCurrentIndex current_path current_pose current_index
    = Some (getClosestIndex current_path current_pose).
Proof.
  intros Hsize Hneg. unfold updateCurrentIndex.
  replace (path_size current_path <? 2)%Z with false by (symmetry; apply Z.ltb_ge; lia).
  replace (path_size current_path - 1 <? current_index)%Z with false
    by (symmetry; apply Z.ltb_ge; lia).
  replace (current_index <? 0)%Z with true by (symmetry; apply Z.ltb_lt; lia).
  reflexivity.
Qed.

Lemma updateCurrentIndex_negative_index_cold_start_witness :
  (2 <= path_size straight3_path)%Z /\ (-5 < 0)%Z /\
  updateCurrentIndex straight3_path (pose_xy 0 0) (-5)
    = Some (getClosestIndex straight3_path (pose_xy 0 0)).
Proof.
  assert (Hsize : (2 <= path_size straight3_path)%Z) by (unfold path_size; simpl; lia).
  assert (Hneg : (-5 < 0)%Z) by lia.
  split; [exact Hsize|]. split; [exact Hneg|].
  exact (updateCurrentIndex_negative_index_cold_start straight3_path (pose_xy 0 0) (-5)
           Hsize Hneg).
Defined.

Arguments getWaypointYaw : simpl never.
Arguments normalizeAngle : simpl never.

(** ** Repeated calls with one pose *)


Section RepeatedCalls.

Context `{TfLibrary}.
Variable current_path : Lane.
Variable current_pose : Pose.

Hypothesis enough_waypoints : (2 <= path_size current_path)%Z.

(** Every waypoint is at a finite distance from the pose. *)
Hypothesis finite_distances :
  forall i : Z, (0 <= i < path_size current_path)%Z ->
    distance_at current_path current_pose i <= DBL_MAX.







End RepeatedCalls.






(** * Further properties of the library *)

(** ** normalizeAngle *)

(** X1: normalizing twice is normalizing once. *)
Theorem normalizeAngle_idempotent (euler : R) :
  normalizeAngle (normalizeAngle euler) = normalizeAngle euler.
Proof. apply normalizeAngle_id. apply normalizeAngle_range. Qed.

(** ** Lane direction *)

Lemma velocity_scan_spec (wps : list Waypoint) :
  match velocity_scan wps with
  | Error => Forall negligible_speed wps
  | Forward =>
      exists pre w post, wps = pre ++ w :: post /\ Forall negligible_speed pre /\
                         1 / 100 <= twist_linear_x w
  | Backward =>
      exists pre w post, wps = pre ++ w :: post /\ Forall negligible_speed pre /\
                         twist_linear_x w <= - (1 / 100)
  end.
Proof.
  induction wps as [|w wps IH]; simpl; [constructor|].
  destruct (Rltb_spec (Rabs (twist_linear_x w)) (1 / 100)) as [Hneg|Hdec].
  - destruct (velocity_scan wps).
    + destruct IH as (pre & w' & post & -> & Hpre & Hv).
      exists (w :: pre), w', post. repeat split; [constructor; assumption | exact Hv].
    + destruct IH as (pre & w' & post & -> & Hpre & Hv).
      exists (w :: pre), w', post. repeat split; [constructor; assumption | exact Hv].
    + constructor; assumption.
  - destruct (Rltb_spec (twist_linear_x w) 0) as [Hlt|Hge].
    + exists [], w, wps. split; [reflexivity|]. split; [constructor|].
      rewrite Rabs_left in Hdec by exact Hlt. lra.
    + exists [], w, wps. split; [reflexivity|]. split; [constructor|].
      rewrite Rabs_right in Hdec by lra. lra.
Qed.

(** X14: [getLaneDirectionByVelocity] is [Error] exactly when every target
    speed of the path is below 0.01 in absolute value (the empty path
    included); otherwise the first waypoint whose speed reaches the
    threshold decides: [Forward] if its speed is positive, [Backward] if
    negative, whatever the waypoints after it say. *)
Theorem getLaneDirectionByVelocity_first_decides (current_path : Lane) :
  (getLaneDirectionByVelocity current_path = Error
   <-> Forall negligible_speed (waypoints current_path)) /\
  (forall pre w post, waypoints current_path = pre ++ w :: post ->
     Forall negligible_speed pre -> ~ negligible_speed w ->
     getLaneDirectionByVelocity current_path
     = if twist_linear_x w <? 0 then Backward else Forward).
Proof.
  unfold getLaneDirectionByVelocity.
  assert (Hdecides : forall pre w post, Forall negligible_speed pre -> ~ negligible_speed w ->
            velocity_scan (pre ++ w :: post)
            = if twist_linear_x w <? 0 then Backward else Forward).
  { induction pre as [|p pre IH]; intros w post Hpre Hw; simpl.
    - rewrite Rltb_false by exact Hw. reflexivity.
    - inversion Hpre as [|? ? Hp Hrest]; subst.
      rewrite Rltb_true by exact Hp. apply IH; assumption. }
  split.
  - split.
    + intros Herr. pose proof (velocity_scan_spec (waypoints current_path)) as Hs.
      rewrite Herr in Hs. exact Hs.
    + intros Hall. induction (waypoints current_path) as [|w wps IH]; [reflexivity|].
      inversion Hall as [|? ? Hw Hrest]; subst. simpl.
      rewrite Rltb_true by exact Hw. apply IH. exact Hrest.
  - intros pre w post -> Hpre Hw. apply Hdecides; assumption.
Qed.

(** X15: on a path with fewer than two waypoints the positional estimate is
    [Error] and [getLaneDirection] returns the velocity estimate: a single
    waypoint with a speed of at least 0.01 in absolute value yields
    [Forward] or [Backward], and the empty path yields [Error]. *)
Theorem getLaneDirection_short_path `{TfLibrary} (current_path : Lane) :
  (path_size current_path < 2)%Z ->
  getLaneDirectionByPosition current_path = Error /\
  getLaneDirection current_path = getLaneDirectionByVelocity current_path /\
  (waypoints current_path = [] -> getLaneDirection current_path = Error) /\
  (forall w, waypoints current_path = [w] -> ~ negligible_speed w ->
     getLaneDirection current_path = if twist_linear_x w <? 0 then Backward else Forward).
Proof.
  intros Hsmall.
  assert (Hpos : getLaneDirectionByPosition current_path = Error).
  { unfold getLaneDirectionByPosition.
    replace (path_size current_path <? 2)%Z with true by (symmetry; apply Z.ltb_lt; lia).
    reflexivity. }
  assert (Hdir : getLaneDirection current_path = getLaneDirectionByVelocity current_path).
  { unfold getLaneDirection. rewrite Hpos.
    destruct (getLaneDirectionByVelocity current_path); reflexivity. }
  split; [exact Hpos|]. split; [exact Hdir|]. split.
  - intros Hempty. rewrite Hdir. unfold getLaneDirectionByVelocity. rewrite Hempty. reflexivity.
  - intros w Hone Hw. rewrite Hdir. unfold getLaneDirectionByVelocity. rewrite Hone. simpl.
    rewrite Rltb_false by exact Hw. reflexivity.
Qed.

(** A single waypoint with speed 1: the direction is [Forward]. *)
Lemma getLaneDirection_short_path_witness :
  (path_size single_path < 2)%Z /\ getLaneDirection single_path = Forward.
Proof.
  assert (Hsmall : (path_size single_path < 2)%Z) by (unfold path_size; simpl; lia).
  split; [exact Hsmall|].
  destruct (getLaneDirection_short_path single_path Hsmall) as (_ & _ & _ & Hone).
  rewrite (Hone (waypoint_xy 0 0 1) eq_refl).
  - simpl. rewrite Rltb_false by lra. reflexivity.
  - unfold negligible_speed. simpl. rewrite Rabs_R1. lra.
Defined.

(** X16: when [getLaneDirection] is [Error], [inDrivingDirection] is false
    for every waypoint of the path and every pose.  The index is inside the
    path: the function reads [waypoints[waypoint]] unchecked. *)
Theorem inDrivingDirection_false_on_error `{TfLibrary}
    (w : WayPoints) (waypoint : Z) (current_pose : Pose) :
  (0 <= waypoint < path_size (current_waypoints_ w))%Z ->
  getLaneDirection (current_waypoints_ w) = Error ->
  WayPoints_inDrivingDirection w waypoint current_pose = false.
Proof.
  intros _ Herr. unfold WayPoints_inDrivingDirection. cbv zeta. rewrite Herr. simpl.
  rewrite !andb_false_r. reflexivity.
Qed.

Lemma inDrivingDirection_false_on_error_witness :
  (0 <= 1 < path_size (current_waypoints_ (mkWayPoints backward_speed_path)))%Z /\
  getLaneDirection (current_waypoints_ (mkWayPoints backward_speed_path)) = Error /\
  WayPoints_inDrivingDirection (mkWayPoints backward_speed_path) 1 (pose_xy 0 0) = false.
Proof.
  assert (Hin : (0 <= 1 < path_size (current_waypoints_ (mkWayPoints backward_speed_path)))%Z)
    by (unfold path_size; simpl; lia).
  assert (Herr : getLaneDirection (current_waypoints_ (mkWayPoints backward_speed_path)) = Error)
    by (simpl; apply getLaneDirection_conflict).
  split; [exact Hin|]. split; [exact Herr|].
  exact (inDrivingDirection_false_on_error (mkWayPoints backward_speed_path) 1 (pose_xy 0 0)
           Hin Herr).
Defined.

(** ** Headings *)

Lemma atan2_range (y x : R) : - PI < atan2 y x <= PI.
Proof.
  pose proof PI_RGT_0 as Hpi. unfold atan2.
  destruct (Rltb_spec 0 x) as [Hxpos|Hxnpos].
  - pose proof (atan_bound (y / x)). lra.
  - destruct (Rltb_spec x 0) as [Hxneg|Hxzero].
    + pose proof (atan_bound (y / x)) as Hb.
      destruct (Rltb_spec y 0) as [Hyneg|Hynneg].
      * assert (Hq : 0 < y / x).
        { replace (y / x) with ((- y) / (- x)) by (field; lra).
          apply Rdiv_lt_0_compat; lra. }
        pose proof (atan_increasing 0 (y / x) Hq) as Hinc. rewrite atan_0 in Hinc. lra.
      * assert (Hq : y / x <= 0).
        { replace (y / x) with (- (y / (- x))) by (field; lra).
          assert (0 <= y / - x) by (apply Rmult_le_pos; [lra|];
                                    left; apply Rinv_0_lt_compat; lra).
          lra. }
        assert (Hat : atan (y / x) <= 0).
        { destruct Hq as [Hlt|Heq].
          - pose proof (atan_increasing (y / x) 0 Hlt) as Hinc. rewrite atan_0 in Hinc. lra.
          - rewrite Heq, atan_0. lra. }
        lra.
    + destruct (Rltb_spec 0 y); [lra|]. destruct (Rltb_spec y 0); lra.
Qed.

Lemma behind_to_current_yaw_range (current_path : Lane) (current_index : Z) :
  - PI <= behind_to_current_yaw current_path current_index <= PI.
Proof.
  unfold behind_to_current_yaw, segment_yaw. cbv zeta.
  destruct (_ <? 0); [apply normalizeAngle_range|].
  match goal with |- context [atan2 ?y ?x] => pose proof (atan2_range y x) end. lra.
Qed.

Lemma current_to_front_yaw_range (current_path : Lane) (current_index : Z) :
  - PI <= current_to_front_yaw current_path current_index <= PI.
Proof.
  unfold current_to_front_yaw, segment_yaw. cbv zeta.
  destruct (_ <? 0); [apply normalizeAngle_range|].
  match goal with |- context [atan2 ?y ?x] => pose proof (atan2_range y x) end. lra.
Qed.

(** X17: on a path of at least two waypoints the heading that
    [getWaypointYaw] returns at an index of the path lies in [[-PI, PI]]:
    it is read off the positions of the waypoints, never off the stored
    orientation, which is only used on a path of a single waypoint. *)
Theorem getWaypointYaw_range `{TfLibrary} (current_path : Lane) (current_index : Z) :
  (2 <= path_size current_path)%Z ->
  (0 <= current_index <= path_size current_path - 1)%Z ->
  - PI <= getWaypointYaw current_path current_index <= PI /\
  forall q : Quaternion,
    getWaypointYaw
      (mkLane (map (fun w => mkWaypoint (mkPose (position (pose w)) q) (twist_linear_x w))
                 (waypoints current_path))) current_index
    = getWaypointYaw current_path current_index.
Proof.
  intros Hsize Hi. split.
  - unfold getWaypointYaw. cbv zeta.
    destruct ((0 <? current_index)%Z && (current_index <? path_size current_path - 1)%Z).
    + destruct (_ <? PI); [apply normalizeAngle_range | apply current_to_front_yaw_range].
    + destruct (Z.ltb_spec 0 current_index) as [Hpos|Hzero];
        [apply behind_to_current_yaw_range|].
      destruct (Z.ltb_spec current_index (path_size current_path - 1)) as [Hlt|Hge];
        [apply current_to_front_yaw_range | lia].
  - intros q.
    set (path' := mkLane (map (fun w => mkWaypoint (mkPose (position (pose w)) q)
                                          (twist_linear_x w)) (waypoints current_path))).
    assert (Hsz : path_size path' = path_size current_path).
    { unfold path_size, path'. simpl. rewrite length_map. reflexivity. }
    assert (Hpos : forall j, (0 <= j < path_size current_path)%Z ->
              position (pose (waypoint_at path' j)) = position (pose (waypoint_at current_path j))
              /\ twist_linear_x (waypoint_at path' j) = twist_linear_x (waypoint_at current_path j)).
    { intros j Hj. unfold waypoint_at, path'. simpl.
      rewrite (nth_indep _ Waypoint_zero
                 (mkWaypoint (mkPose (position (pose Waypoint_zero)) q)
                    (twist_linear_x Waypoint_zero)))
        by (rewrite length_map; unfold path_size in Hj; lia).
      rewrite (map_nth (fun w => mkWaypoint (mkPose (position (pose w)) q) (twist_linear_x w))).
      split; reflexivity. }
    assert (Hseg : forall a b, (0 <= a < path_size current_path)%Z ->
              (0 <= b < path_size current_path)%Z ->
              segment_yaw path' a b = segment_yaw current_path a b).
    { intros a b Ha Hb. unfold segment_yaw. cbv zeta.
      rewrite (proj1 (Hpos a Ha)), (proj1 (Hpos b Hb)). reflexivity. }
    unfold getWaypointYaw. cbv zeta. rewrite Hsz.
    destruct (Z.ltb_spec 0 current_index) as [Hgt|Hzero];
      destruct (Z.ltb_spec current_index (path_size current_path - 1)) as [Hlt|Hge]; simpl.
    + unfold behind_to_current_yaw, current_to_front_yaw. cbv zeta.
      rewrite !Hseg by lia.
      rewrite (proj2 (Hpos current_index ltac:(lia))).
      rewrite (proj2 (Hpos (current_index + 1)%Z ltac:(lia))). reflexivity.
    + unfold behind_to_current_yaw. cbv zeta. rewrite !Hseg by lia.
      rewrite (proj2 (Hpos current_index ltac:(lia))). reflexivity.
    + unfold current_to_front_yaw. cbv zeta. rewrite !Hseg by lia.
      rewrite (proj2 (Hpos (current_index + 1)%Z ltac:(lia))). reflexivity.
    + lia.
Qed.

Lemma getWaypointYaw_range_witness :
  (2 <= path_size left_turn_path)%Z /\ (0 <= 2 <= path_size left_turn_path - 1)%Z /\
  - PI <= getWaypointYaw left_turn_path 2 <= PI.
Proof.
  assert (Hsize : (2 <= path_size left_turn_path)%Z) by (unfold path_size; simpl; lia).
  assert (Hi : (0 <= 2 <= path_size left_turn_path - 1)%Z) by (unfold path_size; simpl; lia).
  split; [exact Hsize|]. split; [exact Hi|].
  apply (getWaypointYaw_range left_turn_path 2 Hsize Hi).
Defined.

Lemma set_first_speed_size (v : R) (current_path : Lane) :
  path_size (set_first_speed v current_path) = path_size current_path.
Proof.
  unfold set_first_speed, path_size.
  destruct (waypoints current_path) as [|first rest] eqn:Hw; [rewrite Hw|]; reflexivity.
Qed.

Lemma set_first_speed_pose (v : R) (current_path : Lane) (j : Z) :
  pose (waypoint_at (set_first_speed v current_path) j) = pose (waypoint_at current_path j).
Proof.
  unfold set_first_speed, waypoint_at.
  destruct (waypoints current_path) as [|first rest] eqn:Hw; [rewrite Hw; reflexivity|].
  simpl. destruct (Z.to_nat j); reflexivity.
Qed.

Lemma set_first_speed_later (v : R) (current_path : Lane) (j : Z) :
  (1 <= j)%Z ->
  twist_linear_x (waypoint_at (set_first_speed v current_path) j)
  = twist_linear_x (waypoint_at current_path j).
Proof.
  intros Hj. unfold set_first_speed, waypoint_at.
  destruct (waypoints current_path) as [|first rest] eqn:Hw; [rewrite Hw; reflexivity|].
  simpl. destruct (Z.to_nat j) eqn:Hn; [lia | reflexivity].
Qed.

(** X18: the target speed of the first waypoint has no influence on any
    heading: replacing it leaves [getWaypointYaw] unchanged at every index
    of the path (the bearing of a segment is turned by the speed at the
    segment's far end, so the first speed is never read).  The index is
    inside the path: the function reads [waypoints[current_index]]
    unchecked. *)
Theorem getWaypointYaw_ignores_first_speed `{TfLibrary}
    (v : R) (current_path : Lane) (current_index : Z) :
  (0 <= current_index <= path_size current_path - 1)%Z ->
  getWaypointYaw (set_first_speed v current_path) current_index
  = getWaypointYaw current_path current_index.
Proof.
  intros [Hi _].
  assert (Hseg : forall a b,
            segment_yaw (set_first_speed v current_path) a b = segment_yaw current_path a b).
  { intros a b. unfold segment_yaw. cbv zeta. rewrite !set_first_speed_pose. reflexivity. }
  assert (Hfront : current_to_front_yaw (set_first_speed v current_path) current_index
                   = current_to_front_yaw current_path current_index).
  { unfold current_to_front_yaw. cbv zeta.
    rewrite Hseg, set_first_speed_later by lia. reflexivity. }
  assert (Hbehind : (0 < current_index)%Z ->
            behind_to_current_yaw (set_first_speed v current_path) current_index
            = behind_to_current_yaw current_path current_index).
  { intros Hpos. unfold behind_to_current_yaw. cbv zeta.
    rewrite Hseg, set_first_speed_later by lia. reflexivity. }
  unfold getWaypointYaw. cbv zeta.
  rewrite set_first_speed_size, set_first_speed_pose, Hfront.
  destruct (Z.ltb_spec 0 current_index) as [Hpos|Hzero]; simpl.
  - rewrite (Hbehind Hpos). reflexivity.
  - reflexivity.
Qed.

(** With the first speed of [reverse_start_path] raised from -1 to 1 the
    path is [straight3_path], and the headings are the same. *)
Lemma getWaypointYaw_ignores_first_speed_witness :
  (0 <= 1 <= path_size reverse_start_path - 1)%Z /\
  set_first_speed 1 reverse_start_path = straight3_path /\
  getWaypointYaw straight3_path 1 = getWaypointYaw reverse_start_path 1.
Proof.
  assert (Hi : (0 <= 1 <= path_size reverse_start_path - 1)%Z) by (unfold path_size; simpl; lia).
  split; [exact Hi|]. split; [reflexivity|].
  exact (getWaypointYaw_ignores_first_speed 1 reverse_start_path 1 Hi).
Defined.

(** ** Direction of a list of poses *)

(** X19: [isDirectionForward] throws on fewer than three poses, although it
    reads only the poses at indices 1 and 2; on three or more it tells
    whether the pose at index 2 lies ahead of the pose at index 1 (relative
    [x] positive), whatever the other poses are. *)
Theorem isDirectionForward_needs_three_poses `{Tf2Library} (poses : list Pose) :
  (isDirectionForward poses = None <-> (length poses < 3)%nat) /\
  (forall p0 p1 p2 rest,
     poses = p0 :: p1 :: p2 :: rest ->
     isDirectionForward poses
     = Some (0 <? Point_x (transformToRelativeCoordinate2D (position p2) p1))).
Proof.
  split.
  - unfold isDirectionForward.
    destruct poses as [|p0 [|p1 [|p2 rest]]]; simpl; split; intros Hyp;
      try reflexivity; try lia; try discriminate.
  - intros p0 p1 p2 rest ->. reflexivity.
Qed.

(** ** MinIDSearch *)

Lemma MinIDSearch_fold (updates : list (Z * R)) (s : MinIDSearch) :
  let s' := fold_left (fun s u => MinIDSearch_update s (fst u) (snd u)) updates s in
  val_min_ s' <= val_min_ s /\
  (forall u, In u updates -> val_min_ s' <= snd u) /\
  (s' = s \/ (In (idx_min_ s', val_min_ s') updates /\ val_min_ s' < val_min_ s)).
Proof.
  revert s. induction updates as [|u updates IH]; intros s; simpl.
  - split; [lra|]. split; [intros u []|]. left. reflexivity.
  - specialize (IH (MinIDSearch_update s (fst u) (snd u))). cbv zeta in IH.
    destruct IH as (Hle & Hall & Hsrc).
    set (s' := fold_left (fun s u => MinIDSearch_update s (fst u) (snd u)) updates
                 (MinIDSearch_update s (fst u) (snd u))) in *.
    unfold MinIDSearch_update in Hle, Hsrc.
    destruct (Rltb_spec (snd u) (val_min_ s)) as [Hlt|Hge]; simpl in Hle.
    + split; [lra|]. split.
      * intros u' [<- | Hin]; [lra | apply Hall; exact Hin].
      * right. destruct Hsrc as [-> | [Hin Hless]].
        -- simpl. split; [left; destruct u; reflexivity | exact Hlt].
        -- simpl in Hless. split; [right; exact Hin | lra].
    + split; [exact Hle|]. split.
      * intros u' [<- | Hin]; [lra | apply Hall; exact Hin].
      * destruct Hsrc as [-> | [Hin Hless]]; [left; reflexivity|].
        right. split; [right; exact Hin | exact Hless].
Qed.

(** X20: after any sequence of updates a [MinIDSearch] holds a value that
    is at most [DBL_MAX] and at most every value it was given.  If some
    value given was below [DBL_MAX], the index and value held are a pair
    that was given; if none was, the result is still [-1] and [isOK] is
    false.  With indices that are not negative, [isOK] holds exactly when
    some value given was below [DBL_MAX]. *)
Theorem MinIDSearch_holds_minimum (updates : list (Z * R)) :
  let s := MinIDSearch_run updates in
  val_min_ s <= DBL_MAX /\
  (forall i v, In (i, v) updates -> val_min_ s <= v) /\
  ((exists i v, In (i, v) updates /\ v < DBL_MAX) ->
   In (MinIDSearch_result s, val_min_ s) updates /\ val_min_ s < DBL_MAX) /\
  ((forall i v, In (i, v) updates -> DBL_MAX <= v) ->
   MinIDSearch_result s = (-1)%Z /\ MinIDSearch_isOK s = false) /\
  ((forall i v, In (i, v) updates -> (0 <= i)%Z) ->
   (MinIDSearch_isOK s = true <-> exists i v, In (i, v) updates /\ v < DBL_MAX)).
Proof.
  intros s. unfold MinIDSearch_run in s.
  destruct (MinIDSearch_fold updates MinIDSearch_new) as (Hle & Hall & Hsrc).
  fold s in Hle, Hall, Hsrc. simpl in Hle.
  assert (Hsome : (exists i v, In (i, v) updates /\ v < DBL_MAX) ->
            In (MinIDSearch_result s, val_min_ s) updates /\ val_min_ s < DBL_MAX).
  { intros (i & v & Hin & Hv). destruct Hsrc as [Heq | [Hin' Hless]].
    - exfalso. specialize (Hall (i, v) Hin). rewrite Heq in Hall. simpl in Hall. lra.
    - split; [exact Hin' | exact Hless]. }
  assert (Hnone : (forall i v, In (i, v) updates -> DBL_MAX <= v) ->
            MinIDSearch_result s = (-1)%Z /\ MinIDSearch_isOK s = false).
  { intros Hbig. destruct Hsrc as [Heq | [Hin' Hless]].
    - rewrite Heq. split; reflexivity.
    - exfalso. specialize (Hbig _ _ Hin'). simpl in Hless. lra. }
  split; [exact Hle|]. split; [intros i v Hin; apply (Hall (i, v) Hin)|].
  split; [exact Hsome|]. split; [exact Hnone|].
  intros Hidx. split.
  - intros Hok. destruct Hsrc as [Heq | [Hin' Hless]].
    + rewrite Heq in Hok. discriminate.
    + exists (idx_min_ s), (val_min_ s). split; [exact Hin' | exact Hless].
  - intros Hex. destruct (Hsome Hex) as [Hin _].
    specialize (Hidx _ _ Hin). unfold MinIDSearch_isOK, MinIDSearch_result in *.
    destruct (Z.eqb_spec (idx_min_ s) (-1)); [lia | reflexivity].
Qed.

(** ** What getClosestIndex finds *)

(** The first loop either keeps [closest_index], no waypoint ahead being
    nearer than [min_distance] with a heading inside the gate, or ends on
    the nearest of the waypoints ahead whose heading is inside the gate, the
    first of them if several are as near. *)
Lemma gated_search_outcome `{TfLibrary} (current_path : Lane) (current_pose : Pose)
    (robot_yaw : R) (count : nat) (i : Z) (min_distance : R) (closest_index : Z) :
  let heading_ok j :=
    Rabs (normalizeAngle (getWaypointYaw current_path j - robot_yaw)) < valid_angle in
  let r := gated_search current_path current_pose robot_yaw count i min_distance closest_index in
  (r = closest_index /\
   forall j, (i <= j < i + Z.of_nat count)%Z ->
     ~ (distance_at current_path current_pose j < min_distance /\ heading_ok j)) \/
  ((i <= r < i + Z.of_nat count)%Z /\
   distance_at current_path current_pose r < min_distance /\ heading_ok r /\
   (forall j, (i <= j < i + Z.of_nat count)%Z -> heading_ok j ->
      distance_at current_path current_pose r <= distance_at current_path current_pose j) /\
   (forall j, (i <= j < r)%Z -> heading_ok j ->
      distance_at current_path current_pose r < distance_at current_path current_pose j)).
Proof.
  intros heading_ok.
  revert i min_distance closest_index.
  induction count as [|count IH]; intros i min_distance closest_index; simpl.
  - left. split; [reflexivity|]. intros j Hj. lia.
  - fold (distance_at current_path current_pose i).
    destruct (Rltb_spec (distance_at current_path current_pose i) min_distance) as [Hnear|Hfar];
      [destruct (Rltb_spec
                   (Rabs (normalizeAngle (getWaypointYaw current_path i - robot_yaw)))
                   valid_angle) as [Hok|Hoff]|]; simpl.
    + right.
      destruct (IH (i + 1)%Z (distance_at current_path current_pose i) i)
        as [(-> & Hnone) | (Hr & Hd & Hh & Hmin & Hfirst)].
      * split; [lia|]. split; [exact Hnear|]. split; [exact Hok|]. split.
        -- intros j Hj Hjok. destruct (Z.eq_dec j i) as [->|Hne]; [lra|].
           apply Rnot_lt_le. intros Hlt. apply (Hnone j ltac:(lia)). split; assumption.
        -- intros j Hj. lia.
      * split; [lia|]. split; [lra|]. split; [exact Hh|]. split.
        -- intros j Hj Hjok. destruct (Z.eq_dec j i) as [->|Hne]; [lra|].
           apply Hmin; [lia | exact Hjok].
        -- intros j Hj Hjok. destruct (Z.eq_dec j i) as [->|Hne]; [exact Hd|].
           apply Hfirst; [lia | exact Hjok].
    + destruct (IH (i + 1)%Z min_distance closest_index)
        as [(-> & Hnone) | (Hr & Hd & Hh & Hmin & Hfirst)].
      * left. split; [reflexivity|]. intros j Hj.
        destruct (Z.eq_dec j i) as [->|Hne]; [intros [_ Hjok]; apply Hoff; exact Hjok|].
        apply Hnone. lia.
      * right. split; [lia|]. split; [exact Hd|]. split; [exact Hh|]. split.
        -- intros j Hj Hjok. destruct (Z.eq_dec j i) as [->|Hne]; [contradiction|].
           apply Hmin; [lia | exact Hjok].
        -- intros j Hj Hjok. destruct (Z.eq_dec j i) as [->|Hne]; [contradiction|].
           apply Hfirst; [lia | exact Hjok].
    + destruct (IH (i + 1)%Z min_distance closest_index)
        as [(-> & Hnone) | (Hr & Hd & Hh & Hmin & Hfirst)].
      * left. split; [reflexivity|]. intros j Hj.
        destruct (Z.eq_dec j i) as [->|Hne]; [intros [Hjd _]; apply Hfar; exact Hjd|].
        apply Hnone. lia.
      * right. split; [lia|]. split; [exact Hd|]. split; [exact Hh|]. split.
        -- intros j Hj Hjok. destruct (Z.eq_dec j i) as [->|Hne]; [lra|].
           apply Hmin; [lia | exact Hjok].
        -- intros j Hj Hjok. destruct (Z.eq_dec j i) as [->|Hne]; [lra|].
           apply Hfirst; [lia | exact Hjok].
Qed.

(** The second loop either keeps [closest_index], no waypoint ahead being
    nearer than [min_distance], or ends on the nearest waypoint ahead, the
    first if several are as near. *)
Lemma nearest_search_outcome (current_path : Lane) (current_pose : Pose)
    (count : nat) (i : Z) (min_distance : R) (closest_index : Z) :
  let r := nearest_search current_path current_pose count i min_distance closest_index in
  (r = closest_index /\
   forall j, (i <= j < i + Z.of_nat count)%Z ->
     min_distance <= distance_at current_path current_pose j) \/
  ((i <= r < i + Z.of_nat count)%Z /\
   distance_at current_path current_pose r < min_distance /\
   (forall j, (i <= j < i + Z.of_nat count)%Z ->
      distance_at current_path current_pose r <= distance_at current_path current_pose j) /\
   (forall j, (i <= j < r)%Z ->
      distance_at current_path current_pose r < distance_at current_path current_pose j)).
Proof.
  revert i min_distance closest_index.
  induction count as [|count IH]; intros i min_distance closest_index; simpl.
  - left. split; [reflexivity|]. intros j Hj. lia.
  - fold (distance_at current_path current_pose i).
    destruct (Rltb_spec (distance_at current_path current_pose i) min_distance) as [Hnear|Hfar].
    + right.
      destruct (IH (i + 1)%Z (distance_at current_path current_pose i) i)
        as [(-> & Hnone) | (Hr & Hd & Hmin & Hfirst)].
      * split; [lia|]. split; [exact Hnear|]. split.
        -- intros j Hj. destruct (Z.eq_dec j i) as [->|Hne]; [lra|]. apply Hnone. lia.
        -- intros j Hj. lia.
      * split; [lia|]. split; [lra|]. split.
        -- intros j Hj. destruct (Z.eq_dec j i) as [->|Hne]; [lra|]. apply Hmin. lia.
        -- intros j Hj. destruct (Z.eq_dec j i) as [->|Hne]; [exact Hd|]. apply Hfirst. lia.
    + destruct (IH (i + 1)%Z min_distance closest_index)
        as [(-> & Hnone) | (Hr & Hd & Hmin & Hfirst)].
      * left. split; [reflexivity|]. intros j Hj.
        destruct (Z.eq_dec j i) as [->|Hne]; [lra|]. apply Hnone. lia.
      * right. split; [lia|]. split; [exact Hd|]. split.
        -- intros j Hj. destruct (Z.eq_dec j i) as [->|Hne]; [lra|]. apply Hmin. lia.
        -- intros j Hj. destruct (Z.eq_dec j i) as [->|Hne]; [lra|]. apply Hfirst. lia.
Qed.

(** The two passes of [getClosestIndex] put together. *)
Lemma getClosestIndex_outcome `{TfLibrary} (current_path : Lane) (current_pose : Pose) :
  (2 <= path_size current_path)%Z ->
  let r := getClosestIndex current_path current_pose in
  let d := distance_at current_path current_pose in
  let inside j := (0 <= j < path_size current_path)%Z in
  (inside r /\ passes_gates current_path current_pose r /\
   (forall j, inside j -> passes_gates current_path current_pose j -> d r <= d j) /\
   (forall j, (0 <= j < r)%Z -> passes_gates current_path current_pose j -> d r < d j)) \/
  ((forall j, inside j -> ~ passes_gates current_path current_pose j) /\
   ((r = (-1)%Z /\ forall j, inside j -> DBL_MAX <= d j) \/
    (inside r /\ d r < DBL_MAX /\ (forall j, inside j -> d r <= d j) /\
     (forall j, (0 <= j < r)%Z -> d r < d j)))).
Proof.
  intros Hsize r d inside. subst r. unfold getClosestIndex.
  replace (path_size current_path <? 2)%Z with false by (symmetry; apply Z.ltb_ge; lia).
  cbv zeta.
  destruct (gated_search_outcome current_path current_pose (getYaw (orientation current_pose))
              (length (waypoints current_path)) 0 valid_distance (-1))
    as [(Hkeep & Hnone) | (Hr & Hd & Hh & Hmin & Hfirst)];
    fold (path_size current_path) in *.
  - rewrite Hkeep. simpl. right. split.
    + intros j Hj Hpass. apply (Hnone j ltac:(unfold inside in Hj; lia)). exact Hpass.
    + destruct (nearest_search_outcome current_path current_pose
                  (length (waypoints current_path)) 0 DBL_MAX (-1))
        as [(-> & Hbig) | (Hr & Hd & Hmin & Hfirst)];
        fold (path_size current_path) in *.
      * left. split; [reflexivity|]. intros j Hj. apply Hbig. unfold inside in Hj. lia.
      * right. split; [unfold inside; lia|]. split; [exact Hd|]. split.
        -- intros j Hj. apply Hmin. unfold inside in Hj. lia.
        -- exact Hfirst.
  - replace (negb (_ =? -1)%Z) with true
      by (symmetry; apply negb_true_iff; apply Z.eqb_neq; lia).
    left. split; [unfold inside; lia|]. split; [split; assumption|]. split.
    + intros j Hj [_ Hjok]. apply Hmin; [unfold inside in Hj; lia | exact Hjok].
    + intros j Hj [_ Hjok]. apply Hfirst; [lia | exact Hjok].
Qed.

(** ** What a call of updateCurrentIndex returns *)

(** X24: on every input [updateCurrentIndex] returns without throwing, and
    the result is [-1] or an index of the path; with at least two waypoints
    and a previous index inside the path it is an index of the path. *)
Theorem updateCurrentIndex_result_in_range `{TfLibrary}
    (current_path : Lane) (current_pose : Pose) (current_index : Z) :
  exists r : Z,
    updateCurrentIndex current_path current_pose current_index = Some r /\
    (r = (-1)%Z \/ (0 <= r < path_size current_path)%Z) /\
    ((2 <= path_size current_path)%Z ->
     (0 <= current_index <= path_size current_path - 1)%Z ->
     (0 <= r < path_size current_path)%Z).
Proof.
  destruct (Z_lt_le_dec (path_size current_path) 2) as [Hsmall|Hsize];
    [|destruct (Z_lt_le_dec (path_size current_path - 1) current_index) as [Hpast|Hin];
      [|destruct (Z_lt_le_dec current_index 0) as [Hneg|Hpos]]].
  - exists (-1)%Z. split; [|split; [left; reflexivity | lia]].
    unfold updateCurrentIndex.
    replace (path_size current_path <? 2)%Z with true by (symmetry; apply Z.ltb_lt; lia).
    reflexivity.
  - exists (-1)%Z. split; [|split; [left; reflexivity | lia]].
    unfold updateCurrentIndex.
    replace (path_size current_path - 1 <? current_index)%Z with true
      by (symmetry; apply Z.ltb_lt; lia).
    rewrite orb_true_r. reflexivity.
  - exists (getClosestIndex current_path current_pose). split; [|split; [|lia]].
    + unfold updateCurrentIndex.
      replace (path_size current_path <? 2)%Z with false by (symmetry; apply Z.ltb_ge; lia).
      replace (path_size current_path - 1 <? current_index)%Z with false
        by (symmetry; apply Z.ltb_ge; lia).
      replace (current_index <? 0)%Z with true by (symmetry; apply Z.ltb_lt; lia).
      reflexivity.
    + destruct (getClosestIndex_outcome current_path current_pose Hsize)
        as [(Hr & _) | (_ & [(-> & _) | (Hr & _)])]; [right; exact Hr | left; reflexivity |
                                                       right; exact Hr].
  - destruct (updateCurrentIndex_outcome current_path current_pose current_index Hsize)
      as (start & r & _ & Hres & _); [lia|].
    cbv zeta in Hres.
    pose proof (clamp_index_bounds r (path_size current_path) ltac:(lia)) as Hb.
    exists (clamp_index r (path_size current_path)).
    split; [exact Hres|]. split; [right; lia | intros _ _; lia].
Qed.

(** ** class WayPoints *)

(** X29: the accessors of [WayPoints] never fail on an index outside the
    path: they return zeros (a zero velocity, the default position,
    orientation and pose).  On every index, inside or outside, the pose
    returned is made of the position and the orientation returned, and
    [getSize] is the number of waypoints. *)
Theorem WayPoints_accessors_outside (w : WayPoints) (waypoint : Z) :
  WayPoints_getSize w = path_size (current_waypoints_ w) /\
  WayPoints_getWaypointPose w waypoint
    = mkPose (WayPoints_getWaypointPosition w waypoint)
             (WayPoints_getWaypointOrientation w waypoint) /\
  ((waypoint < 0 \/ path_size (current_waypoints_ w) <= waypoint)%Z ->
   WayPoints_getWaypointVelocityMPS w waypoint = 0 /\
   WayPoints_getWaypointPosition w waypoint = Point_zero /\
   WayPoints_getWaypointPose w waypoint = Pose_zero) /\
  ((0 <= waypoint < path_size (current_waypoints_ w))%Z ->
   WayPoints_getWaypointVelocityMPS w waypoint
     = twist_linear_x (waypoint_at (current_waypoints_ w) waypoint) /\
   WayPoints_getWaypointPose w waypoint = pose (waypoint_at (current_waypoints_ w) waypoint)).
Proof.
  assert (Hsize : WayPoints_getSize w = path_size (current_waypoints_ w)).
  { unfold WayPoints_getSize, path_size. destruct (waypoints (current_waypoints_ w)); reflexivity. }
  split; [exact Hsize|]. split; [|split].
  - unfold WayPoints_getWaypointPose, WayPoints_getWaypointPosition,
      WayPoints_getWaypointOrientation.
    destruct (WayPoints_outside w waypoint); [reflexivity|].
    destruct (pose (waypoint_at (current_waypoints_ w) waypoint)); reflexivity.
  - intros Hout.
    assert (Hflag : WayPoints_outside w waypoint = true).
    { unfold WayPoints_outside. rewrite Hsize. apply orb_true_iff.
      destruct Hout; [right | left]; apply Z.ltb_lt; lia. }
    unfold WayPoints_getWaypointVelocityMPS, WayPoints_getWaypointPosition,
      WayPoints_getWaypointPose. rewrite Hflag. repeat split.
  - intros Hin.
    assert (Hflag : WayPoints_outside w waypoint = false).
    { unfold WayPoints_outside. rewrite Hsize. apply orb_false_iff.
      split; apply Z.ltb_ge; lia. }
    unfold WayPoints_getWaypointVelocityMPS, WayPoints_getWaypointPose. rewrite Hflag.
    split; reflexivity.
Qed.

(** * Properties on machine doubles *)

Import PrimFloat.PrimFloatNotations.

(** ** The order of doubles

    The comparison [<] of two doubles is decided on their sign, exponent
    and mantissa; it is false as soon as one of them is NaN.  It is a strict
    order: transitive and asymmetric. *)








(** ** normalizeAngle *)












(** At [2^60] the difference [res - 2.0 * M_PI] rounds to [2^60] again. *)
Lemma subtract_turn_at_two_to_60 :
  Binary64.subtract_turns 1 Binary64.two_to_60 = Binary64.two_to_60 /\
  (Binary64.M_PI <? Binary64.two_to_60)%float = true.
Proof. split; vm_compute; reflexivity. Qed.

(** X30: [normalizeAngle] does not return on the input [2^60]: the first
    loop subtracts [2.0 * M_PI], the difference rounds to [2^60], and the
    test [res > M_PI] holds again, for ever. *)
Theorem normalizeAngle_never_returns_on_two_to_60 (fuel : nat) :
  Binary64.normalizeAngle fuel Binary64.two_to_60 = None.
Proof.
  assert (Hloop : Binary64.wrap_down fuel Binary64.two_to_60 = None).
  { induction fuel as [|fuel IH]; [vm_compute; reflexivity|].
    cbn [Binary64.wrap_down]. rewrite (proj2 subtract_turn_at_two_to_60).
    change (Binary64.wrap_down fuel (Binary64.subtract_turns 1 Binary64.two_to_60) = None).
    rewrite (proj1 subtract_turn_at_two_to_60). exact IH. }
  unfold Binary64.normalizeAngle. rewrite Hloop. reflexivity.
Qed.

(** ** Reading the path *)

Lemma at_in_path (current_path : Binary64.Lane) (i : Z) :
  (0 <= i < Binary64.path_size current_path)%Z ->
  Binary64.at_ current_path i = Some (Binary64.waypoint_at current_path i).
Proof.
  intros Hi. unfold Binary64.at_, Binary64.waypoint_at.
  replace ((0 <=? i)%Z && (i <? Binary64.path_size current_path)%Z) with true
    by (symmetry; apply andb_true_iff; split; [apply Z.leb_le | apply Z.ltb_lt]; lia).
  apply nth_error_nth'. unfold Binary64.path_size in Hi. lia.
Qed.

(** ** The offset search *)

(** Inside the path no read of the offset loop throws. *)
Lemma offset_loop_returns (current_path : Binary64.Lane) (current_pose : Binary64.Pose)
    (count : nat) (i offset : Z) :
  (1 <= i)%Z -> (i + Z.of_nat count <= Binary64.path_size current_path - 1)%Z ->
  exists final : Z,
    Binary64.offset_loop current_path current_pose count i offset = Some final.
Proof.
  revert i offset. induction count as [|count IH]; intros i offset Hlo Hhi.
  - exists offset. reflexivity.
  - cbn [Binary64.offset_loop]. unfold Binary64.offset_iteration.
    rewrite !at_in_path by lia.
    match goal with |- context [Binary64.offset_step ?a ?b ?c ?d ?e ?f ?g] =>
      destruct (Binary64.offset_step a b c d e f g) as [offset'|] end.
    + apply IH; lia.
    + exists offset. reflexivity.
Qed.

Lemma search_start_returns (current_path : Binary64.Lane) (current_pose : Binary64.Pose)
    (start_index : Z) :
  (0 <= start_index <= Binary64.path_size current_path - 1)%Z ->
  exists start : Z,
    Binary64.search_start current_path current_pose start_index = Some start.
Proof.
  intros Hi. unfold Binary64.search_start.
  destruct ((start_index <? Binary64.path_size current_path - 1)%Z && (0 <? start_index)%Z)
    eqn:Hinterior; [|eauto].
  apply andb_true_iff in Hinterior. destruct Hinterior as [Hhigh Hlow].
  apply Z.ltb_lt in Hhigh. apply Z.ltb_lt in Hlow.
  destruct (offset_loop_returns current_path current_pose
              (Z.to_nat (Binary64.path_size current_path - 1 - start_index)) start_index 0)
    as [final Hfinal]; [lia | lia |].
  rewrite Hfinal. eauto.
Qed.

(** ** The forward scan *)

(** The forward scan inside the path never throws, and ends in one of three
    ways: no comparison [current_distance > prev_distance] succeeds and
    [next_index] is kept; the first one succeeds, against [prev_distance];
    or the scan stops at the first index [r] whose successor compares
    above it. *)
Lemma distance_scan_outcome (current_path : Binary64.Lane) (current_pose : Binary64.Pose)
    (count : nat) (i : Z) (prev_distance : Binary64.double) (next_index : Z) :
  (0 <= i)%Z -> (i + Z.of_nat count <= Binary64.path_size current_path)%Z ->
  exists r : Z,
    Binary64.distance_scan current_path current_pose count i prev_distance next_index
      = Some r /\
    ((r = next_index /\
      ((0 < count)%nat ->
       (prev_distance <? Binary64.distance_at current_path current_pose i)%float = false) /\
      (forall m : Z, (i <= m)%Z -> (m + 1 < i + Z.of_nat count)%Z ->
         (Binary64.distance_at current_path current_pose m
          <? Binary64.distance_at current_path current_pose (m + 1))%float = false))
     \/ (r = (i - 1)%Z /\ (0 < count)%nat /\
         (prev_distance <? Binary64.distance_at current_path current_pose i)%float = true)
     \/ ((i <= r)%Z /\ (r + 1 < i + Z.of_nat count)%Z /\
         (prev_distance <? Binary64.distance_at current_path current_pose i)%float = false /\
         (Binary64.distance_at current_path current_pose r
          <? Binary64.distance_at current_path current_pose (r + 1))%float = true /\
         (forall m : Z, (i <= m < r)%Z ->
            (Binary64.distance_at current_path current_pose m
             <? Binary64.distance_at current_path current_pose (m + 1))%float = false))).
Proof.
  revert i prev_distance. induction count as [|count IH]; intros i prev_distance Hlo Hhi.
  - exists next_index. split; [reflexivity|]. left.
    split; [reflexivity|]. split; [lia|]. intros m Hm1 Hm2. lia.
  - cbn [Binary64.distance_scan]. rewrite at_in_path by lia.
    fold (Binary64.distance_at current_path current_pose i).
    destruct (prev_distance <? Binary64.distance_at current_path current_pose i)%float
      eqn:Hrise.
    + exists (i - 1)%Z. split; [reflexivity|]. right. left.
      split; [reflexivity|]. split; [lia | reflexivity].
    + destruct (IH (i + 1)%Z (Binary64.distance_at current_path current_pose i))
        as (r & Hr & Hcases); [lia | lia |].
      exists r. split; [exact Hr|].
      destruct Hcases as [(Hnext & Hfirst & Hall)
                         | [(Hri & Hcount & Hup) | (Hr1 & Hr2 & Hfirst & Hup & Hall)]].
      * left. split; [exact Hnext|]. split; [intros _; reflexivity|].
        intros m Hm1 Hm2. destruct (Z.eq_dec m i) as [->|Hne].
        -- apply Hfirst. lia.
        -- apply Hall; lia.
      * right. right. replace r with i in * by lia.
        split; [lia|]. split; [lia|]. split; [reflexivity|]. split; [exact Hup|].
        intros m Hm. lia.
      * right. right.
        split; [lia|]. split; [lia|]. split; [reflexivity|]. split; [exact Hup|].
        intros m Hm. destruct (Z.eq_dec m i) as [->|Hne].
        -- exact Hfirst.
        -- apply Hall. lia.
Qed.

(** ** updateCurrentIndex *)

(** With a valid previous index the early returns are not taken. *)
Lemma updateCurrentIndex_warm_path `{Binary64.Libraries} (fuel : nat)
    (current_path : Binary64.Lane) (current_pose : Binary64.Pose) (current_index : Z) :
  (2 <= Binary64.path_size current_path)%Z ->
  (0 <= current_index <= Binary64.path_size current_path - 1)%Z ->
  Binary64.updateCurrentIndex fuel current_path current_pose current_index =
    (start_index <- Binary64.search_start current_path current_pose current_index ;;
     next_index <-
       Binary64.distance_scan current_path current_pose
         (Z.to_nat (Binary64.path_size current_path
                    - clamp_index start_index (Binary64.path_size current_path)))
         (clamp_index start_index (Binary64.path_size current_path))
         Binary64.DBL_MAX current_index ;;
     Some (clamp_index next_index (Binary64.path_size current_path))).
Proof.
  intros Hsize Hi. unfold Binary64.updateCurrentIndex.
  replace (Binary64.path_size current_path <? 2)%Z with false
    by (symmetry; apply Z.ltb_ge; lia).
  replace (Binary64.path_size current_path - 1 <? current_index)%Z with false
    by (symmetry; apply Z.ltb_ge; lia).
  replace (current_index <? 0)%Z with false by (symmetry; apply Z.ltb_ge; lia).
  replace (Binary64.path_size current_path <? 1)%Z with false
    by (symmetry; apply Z.ltb_ge; lia).
  reflexivity.
Qed.

(** The outcome of a call with a valid previous index: it returns, and the
    result is read off the way the forward scan ends. *)
Lemma updateCurrentIndex_scan_outcome `{Binary64.Libraries} (fuel : nat)
    (current_path : Binary64.Lane) (current_pose : Binary64.Pose) (current_index : Z) :
  (2 <= Binary64.path_size current_path)%Z ->
  (0 <= current_index <= Binary64.path_size current_path - 1)%Z ->
  exists start r : Z,
    Binary64.search_start current_path current_pose current_index = Some start /\
    let start_index := clamp_index start (Binary64.path_size current_path) in
    Binary64.updateCurrentIndex fuel current_path current_pose current_index
      = Some (clamp_index r (Binary64.path_size current_path)) /\
    ((r = current_index /\
      (Binary64.DBL_MAX <? Binary64.distance_at current_path current_pose start_index)%float
        = false /\
      (forall m : Z, (start_index <= m)%Z -> (m + 1 < Binary64.path_size current_path)%Z ->
         (Binary64.distance_at current_path current_pose m
          <? Binary64.distance_at current_path current_pose (m + 1))%float = false))
     \/ (r = (start_index - 1)%Z /\
         (Binary64.DBL_MAX <? Binary64.distance_at current_path current_pose start_index)%float
           = true)
     \/ ((start_index <= r)%Z /\ (r + 1 < Binary64.path_size current_path)%Z /\
         (Binary64.DBL_MAX <? Binary64.distance_at current_path current_pose start_index)%float
           = false /\
         (Binary64.distance_at current_path current_pose r
          <? Binary64.distance_at current_path current_pose (r + 1))%float = true /\
         (forall m : Z, (start_index <= m < r)%Z ->
            (Binary64.distance_at current_path current_pose m
             <? Binary64.distance_at current_path current_pose (m + 1))%float = false))).
Proof.
  intros Hsize Hi.
  destruct (search_start_returns current_path current_pose current_index Hi) as [start Hstart].
  pose proof (clamp_index_bounds start (Binary64.path_size current_path)) as Hclamp.
  set (start_index := clamp_index start (Binary64.path_size current_path)) in *.
  destruct (distance_scan_outcome current_path current_pose
              (Z.to_nat (Binary64.path_size current_path - start_index)) start_index
              Binary64.DBL_MAX current_index)
    as (r & Hr & Hcases); [lia | lia |].
  exists start, r. split; [exact Hstart|]. cbv zeta. split.
  { rewrite updateCurrentIndex_warm_path by assumption. rewrite Hstart.
    fold start_index. rewrite Hr. reflexivity. }
  rewrite Z2Nat.id in Hcases by lia.
  replace (start_index + (Binary64.path_size current_path - start_index))%Z
    with (Binary64.path_size current_path) in Hcases by lia.
  destruct Hcases as [(Hnext & Hfirst & Hall) | [(Hri & _ & Hrise) | Hstop]].
  - left. split; [exact Hnext|]. split; [apply Hfirst; lia | exact Hall].
  - right. left. split; assumption.
  - right. right. exact Hstop.
Qed.

(** Without a successful comparison the scan keeps the previous index. *)
Lemma updateCurrentIndex_keeps_index `{Binary64.Libraries} (fuel : nat)
    (current_path : Binary64.Lane) (current_pose : Binary64.Pose)
    (current_index start : Z) :
  (2 <= Binary64.path_size current_path)%Z ->
  (0 <= current_index <= Binary64.path_size current_path - 1)%Z ->
  Binary64.search_start current_path current_pose current_index = Some start ->
  let start_index := clamp_index start (Binary64.path_size current_path) in
  (Binary64.DBL_MAX <? Binary64.distance_at current_path current_pose start_index)%float
    = false ->
  (forall m : Z, (start_index <= m < Binary64.path_size current_path - 1)%Z ->
     (Binary64.distance_at current_path current_pose m
      <? Binary64.distance_at current_path current_pose (m + 1))%float = false) ->
  Binary64.updateCurrentIndex fuel current_path current_pose current_index
    = Some current_index.
Proof.
  intros Hsize Hi Hstart start_index Hfinite Hfall.
  destruct (updateCurrentIndex_scan_outcome fuel current_path current_pose current_index
              Hsize Hi) as (start' & r & Hstart' & Hres & Hcases).
  rewrite Hstart in Hstart'. injection Hstart' as <-. cbv zeta in Hres, Hcases.
  fold start_index in Hcases.
  destruct Hcases as [(-> & _) | [(_ & Hrise) | (Hr1 & Hr2 & _ & Hrise & _)]].
  - rewrite Hres, clamp_index_in_range by lia. reflexivity.
  - rewrite Hfinite in Hrise. discriminate.
  - rewrite Hfall in Hrise by lia. discriminate.
Qed.

(** C1, as amended: with a path of at least two waypoints and a previous
    index inside it, when no comparison [current_distance > prev_distance]
    of the forward scan succeeds on the doubles that the scan computes (the
    first scanned distance does not compare above [DBL_MAX], and no scanned
    distance compares above the one before it, through the end of the
    path), the call returns the previous index unchanged.  The scan starts
    at the index that the offset search yields, which never throws. *)
Theorem forward_scan_without_rise_returns_previous_index `{Binary64.Libraries}
    (fuel : nat) (current_path : Binary64.Lane) (current_pose : Binary64.Pose)
    (current_index : Z) :
  (2 <= Binary64.path_size current_path)%Z ->
  (0 <= current_index <= Binary64.path_size current_path - 1)%Z ->
  exists start : Z,
    Binary64.search_start current_path current_pose current_index = Some start /\
    let start_index := clamp_index start (Binary64.path_size current_path) in
    ((Binary64.DBL_MAX <? Binary64.distance_at current_path current_pose start_index)%float
       = false ->
     (forall m : Z, (start_index <= m < Binary64.path_size current_path - 1)%Z ->
        (Binary64.distance_at current_path current_pose m
         <? Binary64.distance_at current_path current_pose (m + 1))%float = false) ->
     Binary64.updateCurrentIndex fuel current_path current_pose current_index
       = Some current_index).
Proof.
  intros Hsize Hi.
  destruct (search_start_returns current_path current_pose current_index Hi) as [start Hstart].
  exists start. split; [exact Hstart|].
  intros start_index Hfinite Hfall.
  exact (updateCurrentIndex_keeps_index fuel current_path current_pose current_index start
           Hsize Hi Hstart Hfinite Hfall).
Qed.

(** Settles a statement about the indices [0 .. bound - 1] of a concrete
    path by running the code on each of them. *)
Ltac each_index m Hm bound :=
  lazymatch bound with
  | O => exfalso; lia
  | S ?bound' =>
      destruct (Z.eq_dec m (Z.of_nat bound')) as [->|?];
      [ vm_compute; reflexivity | each_index m Hm bound' ]
  end.

(** Six waypoints along x and the pose at [x = 7], beyond the last one,
    previous index 0: the scan starts at 0 and computes the distances 7, 6,
    5, 4, 3, 2, none above the one before it, and the call returns 0. *)
Lemma forward_scan_without_rise_returns_previous_index_witness :
  (2 <= Binary64.path_size Binary64.straight6_path)%Z /\
  (0 <= 0 <= Binary64.path_size Binary64.straight6_path - 1)%Z /\
  Binary64.search_start Binary64.straight6_path Binary64.pose_at_7 0 = Some 0%Z /\
  (forall m : Z, (0 <= m < Binary64.path_size Binary64.straight6_path - 1)%Z ->
     (Binary64.distance_at Binary64.straight6_path Binary64.pose_at_7 m
      <? Binary64.distance_at Binary64.straight6_path Binary64.pose_at_7 (m + 1))%float
       = false) /\
  Binary64.updateCurrentIndex 0 Binary64.straight6_path Binary64.pose_at_7 0 = Some 0%Z.
Proof.
  assert (Hsize : (2 <= Binary64.path_size Binary64.straight6_path)%Z)
    by (vm_compute; discriminate).
  assert (Hi : (0 <= 0 <= Binary64.path_size Binary64.straight6_path - 1)%Z)
    by (split; vm_compute; discriminate).
  assert (Hstart : Binary64.search_start Binary64.straight6_path Binary64.pose_at_7 0
                   = Some 0%Z) by reflexivity.
  assert (Hfall : forall m : Z,
            (0 <= m < Binary64.path_size Binary64.straight6_path - 1)%Z ->
            (Binary64.distance_at Binary64.straight6_path Binary64.pose_at_7 m
             <? Binary64.distance_at Binary64.straight6_path Binary64.pose_at_7 (m + 1))%float
              = false).
  { intros m Hm. change (Binary64.path_size Binary64.straight6_path) with 6%Z in Hm.
    each_index m Hm 5%nat. }
  split; [exact Hsize|]. split; [exact Hi|]. split; [exact Hstart|]. split; [exact Hfall|].
  destruct (forward_scan_without_rise_returns_previous_index
              (H := Binary64.axis_libraries) 0
              Binary64.straight6_path Binary64.pose_at_7 0 Hsize Hi)
    as (start & Hstart' & Hkeep).
  rewrite Hstart in Hstart'. injection Hstart' as <-.
  apply Hkeep.
  - vm_compute. reflexivity.
  - exact Hfall.
Defined.

(** C1 as stated fails: three waypoints along x, the pose at [x = 5] beyond
    the last one, previous index 0.  The computed distances 5, 4, 3 never
    rise through the end of the path, and the call returns the previous
    index, [0], not the last index, [2]. *)
Lemma forward_scan_keeps_first_index_counterexample :
  (2 <= Binary64.path_size Binary64.straight3_path)%Z /\
  (0 <= 0 <= Binary64.path_size Binary64.straight3_path - 1)%Z /\
  (forall m : Z, (0 <= m < Binary64.path_size Binary64.straight3_path - 1)%Z ->
     (Binary64.distance_at Binary64.straight3_path Binary64.pose_at_5 m
      <? Binary64.distance_at Binary64.straight3_path Binary64.pose_at_5 (m + 1))%float
       = false) /\
  Binary64.updateCurrentIndex 0 Binary64.straight3_path Binary64.pose_at_5 0 = Some 0%Z /\
  Binary64.updateCurrentIndex 0 Binary64.straight3_path Binary64.pose_at_5 0
    <> Some (Binary64.path_size Binary64.straight3_path - 1)%Z.
Proof.
  split; [vm_compute; discriminate|].
  split; [split; vm_compute; discriminate|].
  split.
  { intros m Hm. change (Binary64.path_size Binary64.straight3_path) with 3%Z in Hm.
    each_index m Hm 2%nat. }
  split; [vm_compute; reflexivity|].
  vm_compute. discriminate.
Qed.

(** The statement needs the first comparison, against [DBL_MAX]: with the
    pose at [x = 2^700] every squared difference overflows, every distance
    is infinite, no distance compares above the one before it, and the call
    on index 1 returns 0. *)
Example updateCurrentIndex_on_overflow :
  Binary64.distance_at Binary64.straight3_path Binary64.overflow_pose 2 = PrimFloat.infinity /\
  Binary64.updateCurrentIndex 0 Binary64.straight3_path Binary64.overflow_pose 1 = Some 0%Z /\
  Binary64.updateCurrentIndex 0 Binary64.straight3_path Binary64.overflow_pose 2 = Some 1%Z.
Proof. split; [|split]; vm_compute; reflexivity. Qed.

(** ** getClosestIndex *)








(** The same on an everyday path with the pose at [x = 2^700]: the
    coordinates are finite and so is the true distance, but the squared
    difference overflows, and the result is [-1]. *)
Example getClosestIndex_on_overflow :
  Binary64.distance_at Binary64.straight3_path Binary64.overflow_pose 0 = PrimFloat.infinity /\
  Binary64.getClosestIndex 1 Binary64.straight3_path Binary64.overflow_pose = Some (-1)%Z.
Proof. split; vm_compute; reflexivity. Qed.





(** ** What a warm call returns *)

(** X25: the last index of the path absorbs: with at least two waypoints,
    when the distance computed for the last waypoint does not compare above
    [DBL_MAX], a call on the last index returns the last index. *)
Theorem updateCurrentIndex_stays_at_last_index `{Binary64.Libraries} (fuel : nat)
    (current_path : Binary64.Lane) (current_pose : Binary64.Pose) :
  (2 <= Binary64.path_size current_path)%Z ->
  (Binary64.DBL_MAX
   <? Binary64.distance_at current_path current_pose
        (Binary64.path_size current_path - 1))%float = false ->
  Binary64.updateCurrentIndex fuel current_path current_pose
    (Binary64.path_size current_path - 1)
    = Some (Binary64.path_size current_path - 1)%Z.
Proof.
  intros Hsize Hfinite.
  assert (Hstart : Binary64.search_start current_path current_pose
                     (Binary64.path_size current_path - 1)
                   = Some (Binary64.path_size current_path - 1)%Z).
  { unfold Binary64.search_start. rewrite Z.ltb_irrefl. reflexivity. }
  assert (Hlast : (0 <= Binary64.path_size current_path - 1
                   <= Binary64.path_size current_path - 1)%Z) by lia.
  apply (updateCurrentIndex_keeps_index fuel current_path current_pose _ _
           Hsize Hlast Hstart).
  - rewrite clamp_index_in_range by lia. exact Hfinite.
  - rewrite clamp_index_in_range by lia. intros m Hm. lia.
Qed.

Lemma updateCurrentIndex_stays_at_last_index_witness :
  (2 <= Binary64.path_size Binary64.straight3_path)%Z /\
  (Binary64.DBL_MAX
   <? Binary64.distance_at Binary64.straight3_path Binary64.pose_at_0
        (Binary64.path_size Binary64.straight3_path - 1))%float = false /\
  Binary64.updateCurrentIndex 0 Binary64.straight3_path Binary64.pose_at_0
    (Binary64.path_size Binary64.straight3_path - 1)
    = Some (Binary64.path_size Binary64.straight3_path - 1)%Z.
Proof.
  assert (Hsize : (2 <= Binary64.path_size Binary64.straight3_path)%Z)
    by (vm_compute; discriminate).
  assert (Hfinite : (Binary64.DBL_MAX
                     <? Binary64.distance_at Binary64.straight3_path Binary64.pose_at_0
                          (Binary64.path_size Binary64.straight3_path - 1))%float = false)
    by (vm_compute; reflexivity).
  split; [exact Hsize|]. split; [exact Hfinite|].
  exact (updateCurrentIndex_stays_at_last_index (H := Binary64.axis_libraries) 0
           Binary64.straight3_path Binary64.pose_at_0 Hsize Hfinite).
Defined.

(** X26: when no distance computed for a waypoint compares above
    [DBL_MAX], a call that returns another index than the previous one
    returns an index right before a rise: the distance computed for the
    waypoint after it compares above its own. *)
Theorem updateCurrentIndex_moves_to_a_rise `{Binary64.Libraries} (fuel : nat)
    (current_path : Binary64.Lane) (current_pose : Binary64.Pose)
    (current_index next_index : Z) :
  (2 <= Binary64.path_size current_path)%Z ->
  (forall i : Z, (0 <= i < Binary64.path_size current_path)%Z ->
     (Binary64.DBL_MAX <? Binary64.distance_at current_path current_pose i)%float = false) ->
  (0 <= current_index <= Binary64.path_size current_path - 1)%Z ->
  Binary64.updateCurrentIndex fuel current_path current_pose current_index
    = Some next_index ->
  next_index <> current_index ->
  (0 <= next_index)%Z /\ (next_index + 1 < Binary64.path_size current_path)%Z /\
  (Binary64.distance_at current_path current_pose next_index
   <? Binary64.distance_at current_path current_pose (next_index + 1))%float = true.
Proof.
  intros Hsize Hfinite Hq Hcall Hne.
  destruct (updateCurrentIndex_scan_outcome fuel current_path current_pose current_index
              Hsize Hq) as (start & r & _ & Hres & Hcases).
  cbv zeta in Hres, Hcases. rewrite Hcall in Hres. injection Hres as ->.
  pose proof (clamp_index_bounds start (Binary64.path_size current_path) ltac:(lia))
    as Hclamp.
  destruct Hcases as [(-> & _) | [(_ & Hover) | (Hr1 & Hr2 & _ & Hrise & _)]].
  - exfalso. apply Hne. apply clamp_index_in_range. lia.
  - exfalso.
    rewrite (Hfinite (clamp_index start (Binary64.path_size current_path))) in Hover by lia.
    discriminate.
  - rewrite (clamp_index_in_range r) by lia.
    split; [lia|]. split; [exact Hr2 | exact Hrise].
Qed.

(** Six waypoints along x, the pose at the first one: the call on index 4
    returns 3, and the distance rises from 3 to 4 after it. *)
Lemma updateCurrentIndex_moves_to_a_rise_witness :
  Binary64.updateCurrentIndex 0 Binary64.straight6_path Binary64.pose_at_0 4 = Some 3%Z /\
  (Binary64.distance_at Binary64.straight6_path Binary64.pose_at_0 3
   <? Binary64.distance_at Binary64.straight6_path Binary64.pose_at_0 (3 + 1))%float = true.
Proof.
  assert (Hsize : (2 <= Binary64.path_size Binary64.straight6_path)%Z)
    by (vm_compute; discriminate).
  assert (Hfinite : forall i : Z,
            (0 <= i < Binary64.path_size Binary64.straight6_path)%Z ->
            (Binary64.DBL_MAX
             <? Binary64.distance_at Binary64.straight6_path Binary64.pose_at_0 i)%float
              = false).
  { intros i Hi. change (Binary64.path_size Binary64.straight6_path) with 6%Z in Hi.
    each_index i Hi 6%nat. }
  assert (Hq : (0 <= 4 <= Binary64.path_size Binary64.straight6_path - 1)%Z)
    by (split; vm_compute; discriminate).
  assert (Hcall : Binary64.updateCurrentIndex 0 Binary64.straight6_path Binary64.pose_at_0 4
                  = Some 3%Z) by (vm_compute; reflexivity).
  split; [exact Hcall|].
  apply (updateCurrentIndex_moves_to_a_rise (H := Binary64.axis_libraries) 0
           Binary64.straight6_path Binary64.pose_at_0 4 3 Hsize Hfinite Hq Hcall).
  discriminate.
Defined.

(** ** findClosestIdxWithDistAngThr *)



